(** * Nearby gas station finder: the enrichment pipeline and the map view

    A shallow embedding of the front end's pure helpers
    ([utils/distance.js], [utils/featureFlags.js]), of the distance
    enrichment service ([services/placesService.js]) and of the effects of
    the [MapView] component together with the [App] state they publish to,
    followed by the properties the specification states about them.

    JavaScript numbers are IEEE 754 binary64 values: they are Rocq's
    primitive floats, and every arithmetic operator of the source is the
    corresponding primitive operation.  Strings are sequences of code units;
    the model covers the code units below 256. *)

From Stdlib Require Import ZArith Floats Uint63 Ascii String DecimalString Lia.
From Stdlib Require Reals Lra.
From stdpp Require Import gmap strings list.

#[local] Set Warnings "-inexact-float".

(** ** The ECMAScript built-ins the sources call *)

Module JS.

(** What the language leaves to the engine: the transcendental functions
    are "implementation-approximated", and the digits of a number that is
    not a small integer come from the shortest round-trip search of
    [Number::toString].  None of it is code of the repository. *)
Class Engine := {
  Math_sin : float → float;
  Math_cos : float → float;
  Math_atan2 : float → float → float;
  Number_toString_shortest : float → string
}.

(** [Math.PI] is the binary64 value nearest to pi, 3.141592653589793. *)
Definition Math_PI : float := 0x1.921fb54442d18p+1%float.

Definition Math_sqrt (x : float) : float := PrimFloat.sqrt x.

Definition Number_isNaN (x : float) : bool := PrimFloat.is_nan x.

(** An integer of magnitude at most 2^53 as a number (exact). *)
Definition number_of_Z (z : Z) : float :=
  if (z <? 0)%Z then PrimFloat.opp (PrimFloat.of_uint63 (Uint63.of_Z (- z)))
  else PrimFloat.of_uint63 (Uint63.of_Z z).

(** [Math.round]: the integral number closest to [x], the one closer to
    +infinity on a tie; [-0] for [-0.5 <= x < 0]; NaN, the infinities and
    the zeros are returned as they are.  A finite [x] is [±m * 2^e]. *)
Definition Math_round (x : float) : float :=
  match Prim2SF x with
  | S754_finite s m e =>
      if (0 <=? e)%Z then x
      else
        let d := (2 ^ (- e))%Z in
        let v := if s then Z.neg m else Z.pos m in
        let r := ((2 * v + d) / (2 * d))%Z in
        if (r =? 0)%Z && s then PrimFloat.neg_zero else number_of_Z r
  | _ => x
  end.

(** The mathematical value of a number when it is an integer. *)
Definition integer_value (x : float) : option Z :=
  match Prim2SF x with
  | S754_zero _ => Some 0%Z
  | S754_finite s m e =>
      let sign (z : Z) := if s then (- z)%Z else z in
      if (0 <=? e)%Z then Some (sign (Z.pos m * 2 ^ e)%Z)
      else if (Z.pos m mod 2 ^ (- e) =? 0)%Z
           then Some (sign (Z.pos m / 2 ^ (- e))%Z)
           else None
  | _ => None
  end.

Definition decimal (z : Z) : string := NilZero.string_of_int (Z.to_int z).

(** [k] zeros. *)
Fixpoint zeros (k : nat) : string :=
  match k with
  | O => EmptyString
  | S k => String "0" (zeros k)
  end.

Section WithEngine.
Context `{Engine}.

(** [Number::toString] in radix 10.  Integers below 2^53 in magnitude
    print as their decimal digits; everything else finite goes through
    the engine's shortest-digits search. *)
Definition Number_toString (x : float) : string :=
  match Prim2SF x with
  | S754_nan => "NaN"
  | S754_infinity s => if s then "-Infinity" else "Infinity"
  | S754_zero _ => "0"
  | S754_finite _ _ _ =>
      match integer_value x with
      | Some z => if (Z.abs z <? 2 ^ 53)%Z then decimal z
                  else Number_toString_shortest x
      | None => Number_toString_shortest x
      end
  end.

(** The digits of [Number.prototype.toFixed] for the integer [n] with
    [f] fraction digits: pad with zeros on the left to [f + 1] digits,
    then put the point before the last [f]. *)
Definition fixed_digits (n : Z) (f : nat) : string :=
  let m := decimal n in
  match f with
  | O => m
  | S _ =>
      let m := if decide (String.length m ≤ f)
               then zeros (f + 1 - String.length m) +:+ m
               else m in
      let k := String.length m in
      String.substring 0 (k - f) m +:+ "." +:+ String.substring (k - f) f m
  end.

(** [x.toFixed(f)] for [0 <= f <= 100]: with [n] the integer for which
    [n / 10^f - |x|] is closest to zero (the larger on a tie), computed
    on the exact value [m * 2^e] of [|x|]. *)
Definition Number_toFixed (x : float) (f : nat) : string :=
  match Prim2SF x with
  | S754_finite s m e =>
      let sgn := if s then "-" else "" in
      if (1e21 <=? PrimFloat.abs x)%float
      then sgn +:+ Number_toString (PrimFloat.abs x)
      else
        let p := (10 ^ Z.of_nat f)%Z in
        let n := if (0 <=? e)%Z then (Z.pos m * 2 ^ e * p)%Z
                 else ((2 * Z.pos m * p + 2 ^ (- e)) / (2 * 2 ^ (- e)))%Z in
        sgn +:+ fixed_digits n f
  | S754_zero _ => fixed_digits 0 f
  | _ => Number_toString x
  end.
End WithEngine.

(** *** Strings *)

(** [WhiteSpace] and [LineTerminator] code units below 256: TAB, LF, VT,
    FF, CR, SP and NBSP. *)
Definition is_white_space (c : ascii) : bool :=
  let n := N_of_ascii c in
  ((9 <=? n) && (n <=? 13) || (n =? 32) || (n =? 160))%N.

Fixpoint trimStart (s : string) : string :=
  match s with
  | String c r => if is_white_space c then trimStart r else s
  | EmptyString => EmptyString
  end.

Fixpoint trimEnd (s : string) : string :=
  match s with
  | String c r =>
      match trimEnd r with
      | EmptyString => if is_white_space c then EmptyString else String c EmptyString
      | r' => String c r'
      end
  | EmptyString => EmptyString
  end.

(** [String.prototype.trim] *)
Definition trim (s : string) : string := trimEnd (trimStart s).

(** Lower case of one code unit below 256: A-Z, and the capital letters
    of the range 192..222 (215 is the multiplication sign). *)
Definition lower_unit (c : ascii) : ascii :=
  let n := N_of_ascii c in
  if ((65 <=? n) && (n <=? 90) || (192 <=? n) && (n <=? 222) && negb (n =? 215))%N
  then ascii_of_N (n + 32) else c.

(** [String.prototype.toLowerCase] *)
Fixpoint toLowerCase (s : string) : string :=
  match s with
  | String c r => String (lower_unit c) (toLowerCase r)
  | EmptyString => EmptyString
  end.

(** [String.prototype.split] with a separator that matches exactly one
    code unit ([/[;,]/], ['=']): the pieces between the separators, in
    order, empty pieces included; a string without separator is the only
    piece. *)
Fixpoint split (sep : ascii → bool) (s : string) : list string :=
  match s with
  | EmptyString => [EmptyString]
  | String c r =>
      if sep c then EmptyString :: split sep r
      else match split sep r with
           | piece :: pieces => String c piece :: pieces
           | [] => [String c EmptyString]
           end
  end.

(** [Boolean(s)] of a string, and of a property that may be missing. *)
Definition truthy (s : string) : bool :=
  match s with EmptyString => false | String _ _ => true end.

Definition truthy_opt (s : option string) : bool :=
  match s with Some s => truthy s | None => false end.

(** *** Objects used as dictionaries

    The own properties of an object literal are a finite map.  An
    assignment [o[k] = v] defines or overwrites the own property [k],
    except for the one name that [Object.prototype] answers with a setter:
    [o['__proto__'] = v] runs [set Object.prototype.__proto__], which
    returns without effect when [v] is neither an object nor [null], so a
    boolean stored under that name is dropped. *)
Definition assign {V} (k : string) (v : V) (o : gmap string V) : gmap string V :=
  if decide (k = "__proto__") then o else <[k := v]> o.

(** The values the sources test with [typeof]. *)
Inductive Value :=
| VUndefined
| VNull
| VBoolean (b : bool)
| VNumber (x : float)
| VString (s : string).

End JS.

(** ** [utils/distance.js] *)

Module Distance.
Import JS.

(** The argument of [formatDistance]: a number, or one of the two values
    [meters == null] catches. *)
Inductive Meters :=
| Undefined
| Null
| Num (x : float).

Section WithEngine.
Context `{Engine}.
Local Open Scope float_scope.

Definition toRad (d : float) : float := (d * Math_PI) / 180.

Definition R : float := 6371000.

Definition haversineMeters (lat1 lon1 lat2 lon2 : float) : float :=
  let dLat := toRad (lat2 - lat1) in
  let dLon := toRad (lon2 - lon1) in
  let a :=
    Math_sin (dLat / 2) * Math_sin (dLat / 2) +
    Math_cos (toRad lat1) * Math_cos (toRad lat2) *
    Math_sin (dLon / 2) * Math_sin (dLon / 2) in
  let c := 2 * Math_atan2 (Math_sqrt a) (Math_sqrt (1 - a)) in
  R * c.

Definition metersToKm (m : float) : float := m / 1000.

Definition metersToMiles (m : float) : float := m / 1609.344.

Definition formatDistance (meters : Meters) : string :=
  match meters with
  | Undefined | Null => ""
  | Num m =>
      if Number_isNaN m then ""
      else if m <? 1000 then Number_toString (Math_round m) +:+ " m"
      else
        let km := metersToKm m in
        Number_toFixed km (if km <? 10 then 1 else 0) +:+ " km"
  end.

Definition formatDistanceKm (meters : Meters) : string :=
  formatDistance meters.
End WithEngine.

End Distance.

(** ** [utils/featureFlags.js] *)

Module FeatureFlags.
Import JS.

(** The right-hand sides of [flags[k] = ...] for the second piece [v] of a
    pair ([None] when the pair has no ['=']). *)
Definition flagValue (v : option string) : bool :=
  match v with
  | None => true
  | Some v =>
      if decide (v = "") then true
      else
        let lower := toLowerCase v in
        bool_decide (lower = "true") || bool_decide (lower = "1") || bool_decide (lower = "yes")
  end.

(** One turn of the [for (const p of pairs)] loop. *)
Definition parsePair (flags : gmap string bool) (p : string) : gmap string bool :=
  match trim <$> split (λ c, bool_decide (c = "="%char)) p with
  | k :: rest =>
      if decide (k = "") then flags
      else assign k (flagValue (head rest)) flags
  | [] => flags
  end.

Definition pairsOf (envString : string) : list string :=
  filter (λ s, truthy s = true)
         (trim <$> split (λ c, bool_decide (c = ";"%char) || bool_decide (c = ","%char)) envString).

Definition parseFeatureFlags (envString : Value) : gmap string bool :=
  match envString with
  | VString s =>
      if truthy s then fold_left parsePair (pairsOf s) ∅ else ∅
  | _ => ∅
  end.

End FeatureFlags.

(** ** [services/placesService.js] *)

Module PlacesService.
Import JS Distance.

Record LatLngLiteral := { lat : float; lng : float }.

(** What [p.geometry.location] holds: a [google.maps.LatLng], whose [lat]
    and [lng] are methods, or some other object. *)
Inductive GeometryLocation :=
| LatLngObject (lat lng : float)
| LatLngPlain (l : LatLngLiteral).

(** A place as the provider returns it, with the three properties that
    enrichment adds.  [None] is a missing (or [undefined]) property. *)
Record Place := {
  place_id : option string;
  name : option string;
  vicinity : option string;
  rating : option float;
  geometry_location : option GeometryLocation;
  location : option LatLngLiteral;
  distanceMeters : option float;
  distanceText : option string;
  durationText : option string
}.

(** *** The provider *)

(** [distance] and [duration] of an element; [value] is [None] when
    missing or when [typeof value] is not ['number']. *)
Record TextValue := { value : option float; text : option string }.

Record Element := {
  status : string;
  distance : option TextValue;
  duration : option TextValue
}.

Record Row := { elements : option (list Element) }.

Record Response := { rows : option (list Row) }.

Inductive Destination :=
| DestLatLng (lat lng : float)
| DestText (address : option string).

Record MatrixRequest := {
  origins : list LatLngLiteral;
  destinations : list Destination;
  travelMode : string;
  unitSystem : string
}.

(** How a call ends: with an exception, or with the callback run on a
    result and a status. *)
Inductive Outcome (A : Type) :=
| Throws
| CallsBack (res : option A) (status : string).
Arguments Throws {A}.
Arguments CallsBack {A} res status.

Record NearbyRequest := {
  nr_location : LatLngLiteral;
  nr_radius : float;
  nr_type : list string
}.

Record Google := {
  nearbySearch : NearbyRequest → Outcome (list Place);
  getDistanceMatrix : MatrixRequest → Outcome Response
}.

(** A settled promise. *)
Inductive Settled (A : Type) :=
| Resolved (a : A)
| Rejected.
Arguments Resolved {A} a.
Arguments Rejected {A}.

(** *** [searchNearbyGasStations] *)

Definition searchNearbyGasStations (google : Google) (location : LatLngLiteral)
    (radius : float) (limit : nat) : Settled (list Place) :=
  let request := {| nr_location := location; nr_radius := radius;
                    nr_type := ["gas_station"] |} in
  match nearbySearch google request with
  | CallsBack (Some results) status =>
      if decide (status = "OK") then Resolved (take limit results) else Rejected
  | CallsBack None _ => Rejected
  | Throws => Rejected
  end.

(** *** [computeDistancesIfEnabled] *)

(** [{ ...p, distanceMeters, distanceText, durationText }] *)
Definition withDistance (p : Place) (meters : option float)
    (dText durText : option string) : Place :=
  {| place_id := place_id p; name := name p; vicinity := vicinity p;
     rating := rating p; geometry_location := geometry_location p;
     location := location p;
     distanceMeters := meters; distanceText := dText; durationText := durText |}.

Definition destinationOf (p : Place) : Destination :=
  match geometry_location p with
  | Some (LatLngObject la ln) => DestLatLng la ln
  | _ =>
      match location p with
      | Some l => DestLatLng (lat l) (lng l)
      | None => DestText (if truthy_opt (vicinity p) then vicinity p else name p)
      end
  end.

(** The awaited promise around [service.getDistanceMatrix]: the response
    when the call resolves, [None] when it rejects or throws. *)
Definition awaitDistanceMatrix (google : Google) (origin : LatLngLiteral)
    (places : list Place) : option Response :=
  match getDistanceMatrix google
          {| origins := [origin]; destinations := destinationOf <$> places;
             travelMode := "DRIVING"; unitSystem := "METRIC" |} with
  | CallsBack (Some res) status => if decide (status = "OK") then Some res else None
  | CallsBack None _ => None
  | Throws => None
  end.

(** [response.rows?.[0]?.elements || []] *)
Definition elementsOf (response : Response) : list Element :=
  match rows response with
  | Some (row :: _) => default [] (elements row)
  | _ => []
  end.

Section WithEngine.
Context `{Engine}.

(** The body of the [places.map((p, idx) => ...)] of the network-aware
    branch, on [el = distances[idx]]. *)
Definition enrichFromElement (p : Place) (el : option Element) : Place :=
  let dmMeters := (el ≫= distance) ≫= value in
  let dmText := (el ≫= distance) ≫= text in
  let durText := (el ≫= duration) ≫= text in
  withDistance p dmMeters
    (if truthy_opt dmText then dmText
     else (λ m, formatDistance (Num m)) <$> dmMeters)
    durText.

(** The body of the [places.map] of the haversine fallback. *)
Definition enrichByHaversine (origin : option LatLngLiteral) (p : Place) : Place :=
  let meters :=
    match origin, geometry_location p with
    | Some o, Some (LatLngObject la ln) =>
        Some (haversineMeters (lat o) (lng o) la ln)
    | Some o, _ =>
        match location p with
        | Some l => Some (haversineMeters (lat o) (lng o) (lat l) (lng l))
        | None => None
        end
    | None, _ => None
    end in
  withDistance p meters ((λ m, formatDistance (Num m)) <$> meters) (durationText p).

Definition computeDistancesIfEnabled (google : Google)
    (origins : list LatLngLiteral) (places : list Place)
    (flags : gmap string bool) : list Place :=
  let enableDM := default false (flags !! "enableDistanceMatrix") in
  let fallback := enrichByHaversine (head origins) <$> places in
  if enableDM && bool_decide (0 < length origins) && bool_decide (0 < length places)
  then
    match head origins with
    | Some origin =>
        match awaitDistanceMatrix google origin places with
        | Some response =>
            let distances := elementsOf response in
            imap (λ idx p, enrichFromElement p (distances !! idx)) places
        | None => fallback
        end
    | None => fallback
    end
  else fallback.
End WithEngine.

End PlacesService.

(** ** [App.js] and the [MapView] component

    The state that the claims observe: the [useState] cells of [App], the
    refs of [MapView], the [google.maps.Marker] objects those refs point to,
    and the closures that the runs of the fetch effect leave behind.  Each
    run of that effect has an [alive] variable of its own, reachable from its
    pending [fetchStations] call and from the cleanup React holds. *)

Module MapView.
Import JS Distance PlacesService.

Inductive Animation := BOUNCE.

(** A marker object: its options, and the place that its click listener
    closes over. *)
Record Marker := {
  position : option GeometryLocation;
  onMap : bool;
  title : option string;
  animation : option Animation;
  listener : Place
}.

(** One run of the fetch effect that got past its guard. *)
Record Run := {
  alive : bool;
  center : LatLngLiteral;
  userLocation : option LatLngLiteral;
  flags : gmap string bool;
  outcome : option (Settled (list Place))
}.

Record State := {
  (* App *)
  stations : list Place;
  listError : string;
  loading : bool;
  selectedStation : option Place;
  (* useGoogleMaps: status === 'ready' && google *)
  ready : bool;
  (* MapView refs *)
  mapRef : bool;
  markersRef : list nat;
  timers : list nat;
  (* the Marker objects constructed so far, by handle *)
  markers : gmap nat Marker;
  allocated : nat;
  (* the fetch effect *)
  runs : list Run;
  cleanup : option nat
}.

Definition init : State :=
  {| stations := []; listError := ""; loading := false; selectedStation := None;
     ready := false; mapRef := false; markersRef := []; timers := [];
     markers := ∅; allocated := 0; runs := []; cleanup := None |}.

(** *** Field updates *)

Definition setPublished (l : list Place) (e : string) (s : State) : State :=
  {| stations := l; listError := e; loading := loading s;
     selectedStation := selectedStation s; ready := ready s; mapRef := mapRef s;
     markersRef := markersRef s; timers := timers s; markers := markers s;
     allocated := allocated s; runs := runs s; cleanup := cleanup s |}.

Definition setLoading (b : bool) (s : State) : State :=
  {| stations := stations s; listError := listError s; loading := b;
     selectedStation := selectedStation s; ready := ready s; mapRef := mapRef s;
     markersRef := markersRef s; timers := timers s; markers := markers s;
     allocated := allocated s; runs := runs s; cleanup := cleanup s |}.

Definition setSelectedStation (p : option Place) (s : State) : State :=
  {| stations := stations s; listError := listError s; loading := loading s;
     selectedStation := p; ready := ready s; mapRef := mapRef s;
     markersRef := markersRef s; timers := timers s; markers := markers s;
     allocated := allocated s; runs := runs s; cleanup := cleanup s |}.

Definition setMap (r m : bool) (s : State) : State :=
  {| stations := stations s; listError := listError s; loading := loading s;
     selectedStation := selectedStation s; ready := r; mapRef := m;
     markersRef := markersRef s; timers := timers s; markers := markers s;
     allocated := allocated s; runs := runs s; cleanup := cleanup s |}.

Definition setMarkers (ref : list nat) (heap : gmap nat Marker) (a : nat)
    (s : State) : State :=
  {| stations := stations s; listError := listError s; loading := loading s;
     selectedStation := selectedStation s; ready := ready s; mapRef := mapRef s;
     markersRef := ref; timers := timers s; markers := heap;
     allocated := a; runs := runs s; cleanup := cleanup s |}.

Definition setAnimations (heap : gmap nat Marker) (t : list nat) (s : State) : State :=
  {| stations := stations s; listError := listError s; loading := loading s;
     selectedStation := selectedStation s; ready := ready s; mapRef := mapRef s;
     markersRef := markersRef s; timers := t; markers := heap;
     allocated := allocated s; runs := runs s; cleanup := cleanup s |}.

Definition setRuns (rs : list Run) (c : option nat) (s : State) : State :=
  {| stations := stations s; listError := listError s; loading := loading s;
     selectedStation := selectedStation s; ready := ready s; mapRef := mapRef s;
     markersRef := markersRef s; timers := timers s; markers := markers s;
     allocated := allocated s; runs := rs; cleanup := c |}.

Definition setAlive (b : bool) (r : Run) : Run :=
  {| alive := b; center := center r; userLocation := userLocation r;
     flags := flags r; outcome := outcome r |}.

Definition setOutcome (o : Settled (list Place)) (r : Run) : Run :=
  {| alive := alive r; center := center r; userLocation := userLocation r;
     flags := flags r; outcome := Some o |}.

(** [m.setMap(null)] and [m.setAnimation(a)] *)
Definition marker_setMap_null (m : Marker) : Marker :=
  {| position := position m; onMap := false; title := title m;
     animation := animation m; listener := listener m |}.

Definition marker_setAnimation (a : option Animation) (m : Marker) : Marker :=
  {| position := position m; onMap := onMap m; title := title m;
     animation := a; listener := listener m |}.

(** *** [App]: [handleStationsUpdate], passed as [onStationsChanged] *)

Definition handleStationsUpdate (list : list Place) (errMsg : option string)
    (s : State) : State :=
  setPublished list (if truthy_opt errMsg then default "" errMsg else "") s.

(** *** Painting the markers (the success path of [fetchStations]) *)

(** [place.geometry?.location || place.location] *)
Definition markerPosition (place : Place) : option GeometryLocation :=
  match geometry_location place with
  | Some g => Some g
  | None => LatLngPlain <$> location place
  end.

(** [new google.maps.Marker({ position, map, title: place.name })] with
    its click listener. *)
Definition newMarker (place : Place) : Marker :=
  {| position := markerPosition place; onMap := true; title := name place;
     animation := None; listener := place |}.

(** One turn of [enriched.forEach]: construct a marker, push its handle. *)
Definition pushMarker (acc : gmap nat Marker * list nat * nat) (place : Place)
    : gmap nat Marker * list nat * nat :=
  let '(heap, ref, a) := acc in
  (<[a := newMarker place]> heap, ref ++ [a], S a).

Definition paintMarkers (enriched : list Place) (s : State) : State :=
  (* markersRef.current.forEach(m => m.setMap(null)) *)
  let heap := fold_left (λ h k, alter marker_setMap_null k h) (markersRef s) (markers s) in
  (* markersRef.current = []; enriched.forEach(...) *)
  let '(heap, ref, a) := fold_left pushMarker enriched (heap, [], allocated s) in
  setMarkers ref heap a s.

(** *** The fetch effect *)

Definition failureMessage : string :=
  "Failed to load nearby stations. Please try again shortly.".

Definition maxMarkers : nat := 50.

Section WithEngine.
Context `{Engine}.

(** What the two awaits of [fetchStations] produce for a run, given the
    provider's behaviour while the run is in flight. *)
Definition awaitStations (net : Google) (r : Run) : Settled (list Place) :=
  match searchNearbyGasStations net (center r) 5000 maxMarkers with
  | Resolved raw =>
      Resolved (computeDistancesIfEnabled net
                  (match userLocation r with Some u => [u] | None => [] end)
                  raw (flags r))
  | Rejected => Rejected
  end.

(** The rest of [fetchStations] after its awaits, for run [n]: the
    [if (!alive) return] of either path, then [finally]. *)
Definition settle (n : nat) (net : Google) (s : State) : option State :=
  match runs s !! n with
  | Some r =>
      match outcome r with
      | None =>
          let o := awaitStations net r in
          let s := setRuns (<[n := setOutcome o r]> (runs s)) (cleanup s) s in
          let s :=
            match o with
            | Resolved enriched =>
                if alive r
                then paintMarkers enriched (handleStationsUpdate enriched None s)
                else s
            | Rejected =>
                if alive r
                then handleStationsUpdate [] (Some failureMessage) s
                else s
            end in
          Some (setLoading false s)
      | Some _ => None
      end
  | None => None
  end.
End WithEngine.

(** A commit in which a dependency of the fetch effect changed: the map
    is created if it can be and was not yet, React calls the cleanup of
    the previous run ([alive = false]), and the effect body runs. *)
Definition fetchEffect (rdy : bool) (c : option LatLngLiteral)
    (u : option LatLngLiteral) (fl : gmap string bool) (s : State) : State :=
  let s := setMap rdy (mapRef s || rdy && bool_decide (is_Some c)) s in
  let rs := match cleanup s with
            | Some n => alter (setAlive false) n (runs s)
            | None => runs s
            end in
  match c with
  | Some c =>
      if ready s && mapRef s
      then setLoading true
             (setRuns (rs ++ [{| alive := true; center := c; userLocation := u;
                                 flags := fl; outcome := None |}])
                      (Some (length rs)) s)
      else setRuns rs None s
  | None => setRuns rs None s
  end.

(** *** The highlight effect *)

Definition hasTitle (heap : gmap nat Marker) (k : nat) : bool :=
  match heap !! k with
  | Some m => truthy_opt (title m)
  | None => false
  end.

Definition highlightEffect (s : State) : State :=
  if negb (ready s) then s
  else
    let heap := fold_left (λ h k, alter (marker_setAnimation None) k h)
                          (markersRef s) (markers s) in
    let selectedStationId := selectedStation s ≫= place_id in
    if truthy_opt selectedStationId && bool_decide (0 < length (markersRef s))
    then
      (* find(m => m.getTitle && m.getTitle() && selectedStationId) *)
      match List.find (hasTitle heap) (markersRef s) with
      | Some k =>
          if mapRef s
          then setAnimations (alter (marker_setAnimation (Some BOUNCE)) k heap)
                             (timers s ++ [k]) s
          else setAnimations heap (timers s) s
      | None => setAnimations heap (timers s) s
      end
    else setAnimations heap (timers s) s.

(** [handleSelectStation], then the effect when [selectedStationId]
    changed. *)
Definition select (st : option Place) (s : State) : State :=
  let before := selectedStation s ≫= place_id in
  let s := setSelectedStation st s in
  if decide (st ≫= place_id = before) then s else highlightEffect s.

(** The callback of [setTimeout(() => match.setAnimation(null), 1400)]. *)
Definition timerFires (i : nat) (s : State) : option State :=
  match timers s !! i with
  | Some k =>
      Some (setAnimations (alter (marker_setAnimation None) k (markers s))
                          (delete i (timers s)) s)
  | None => None
  end.

(** *** Events

    [Render]: a commit in which a dependency of the fetch effect changed
    (the status of the loader, the centre, the user location, the flags, or
    one of the callbacks that [App] passes), with the values the effect
    then sees.  [Settle n net]: the awaited calls of run [n] complete, with
    [net] the provider's behaviour towards that run.  [Select]: [App] sets
    the selected station.  [TimerFires i]: the i-th pending timeout runs. *)

Inductive Event :=
| Render (rdy : bool) (c u : option LatLngLiteral) (fl : gmap string bool)
| Settle (n : nat) (net : Google)
| Select (st : option Place)
| TimerFires (i : nat).

Section WithEngine.
Context `{Engine}.

Definition step (s : State) (e : Event) : option State :=
  match e with
  | Render rdy c u fl =>
      let changed := bool_decide (rdy ≠ ready s) in
      let s := fetchEffect rdy c u fl s in
      Some (if changed then highlightEffect s else s)
  | Settle n net => settle n net s
  | Select st => Some (select st s)
  | TimerFires i => timerFires i s
  end.

Fixpoint run (s : State) (tr : list Event) : option State :=
  match tr with
  | [] => Some s
  | e :: tr =>
      match step s e with
      | Some s => run s tr
      | None => None
      end
  end.
End WithEngine.

End MapView.

(** ** [StationList] ([components/StationList.jsx]) *)

Module StationList.
Import JS Distance PlacesService.

(** [Array.prototype.slice(start, end)]: negative indices count from the
    end, indices past the end are clamped, an empty range gives []. *)
Definition slice {A} (start end_ : Z) (l : list A) : list A :=
  let len := Z.of_nat (length l) in
  let k := if (start <? 0)%Z then Z.max (len + start) 0 else Z.min start len in
  let final := if (end_ <? 0)%Z then Z.max (len + end_) 0 else Z.min end_ len in
  take (Z.to_nat (final - k)) (drop (Z.to_nat k) l).

Definition pageSize : Z := 10.

(** [Math.max(1, Math.ceil(stations.length / pageSize))].  The length of an
    array is an integer below 2^32, for which the rounded quotient by 10
    has the ceiling of the exact one. *)
Definition pages (stations : list Place) : Z :=
  Z.max 1 ((Z.of_nat (length stations) + pageSize - 1) / pageSize).

(** The cards of the current page. *)
Definition view (stations : list Place) (page : Z) : list Place :=
  let start := ((page - 1) * pageSize)%Z in
  slice start (start + pageSize) stations.

Definition handleNext (stations : list Place) (p : Z) : Z :=
  Z.min (p + 1) (pages stations).

Definition handlePrev (p : Z) : Z := Z.max (p - 1) 1.

(** The pagination bar is rendered, and its buttons are disabled. *)
Definition showsPagination (stations : list Place) : bool :=
  (1 <? pages stations)%Z.

Definition prevDisabled (page : Z) : bool := (page =? 1)%Z.

Definition nextDisabled (stations : list Place) (page : Z) : bool :=
  (page =? pages stations)%Z.

(** [!loading && stations.length === 0]: the "No stations found" notice. *)
Definition showsEmptyNotice (loading : bool) (stations : list Place) : bool :=
  negb loading && bool_decide (length stations = 0).

(** [selectedId && s.place_id === selectedId] *)
Definition isSelected (selectedId : option string) (s : Place) : bool :=
  truthy_opt selectedId && bool_decide (place_id s = selectedId).

Section WithEngine.
Context `{Engine}.

(** [s.distanceText || (s.distanceMeters != null ?
    formatDistance(s.distanceMeters) : undefined)] *)
Definition cardDistanceText (s : Place) : option string :=
  if truthy_opt (distanceText s) then distanceText s
  else (λ m, formatDistance (Num m)) <$> distanceMeters s.

(** The distance line of a card. *)
Definition cardDistanceLine (s : Place) : string :=
  if truthy_opt (cardDistanceText s)
  then "Distance: " +:+ default "" (cardDistanceText s)
  else "Distance unavailable".
End WithEngine.

End StationList.

(** ** [useGeolocation] ([hooks/useGeolocation.js])

    The [coords] and [error] cells and the request counter [requestRef];
    the [permission] cell is written by [readPermission] alone and read by
    none of the functions below. *)

Module Geolocation.
Import JS PlacesService.

(** The [error] the hook exposes. *)
Record GeoError := { code : string; message : string }.

(** What the browser hands to the error callback: [code] when it is a
    number, [message] when [typeof] says ['string']. *)
Record PositionError := {
  pe_code : option float;
  pe_message : option string
}.

(** [codeMap[err?.code]]: the property named by the number. *)
Definition codeMap (c : option float) : option string :=
  match c with
  | Some n =>
      if (n =? 1)%float then Some "PERMISSION_DENIED"
      else if (n =? 2)%float then Some "POSITION_UNAVAILABLE"
      else if (n =? 3)%float then Some "TIMEOUT"
      else None
  | None => None
  end.

(** The object [mapError] passes to [setError]. *)
Definition mapError (err : option PositionError) : GeoError :=
  let msg := default "" (err ≫= pe_message) in
  {| code := default "UNKNOWN" (codeMap (err ≫= pe_code));
     message := if truthy msg then String.substring 0 180 msg
                else "Geolocation error" |}.

Definition unsupported : GeoError :=
  {| code := "UNSUPPORTED";
     message := "Geolocation is not supported by this browser." |}.

Record State := {
  coords : option LatLngLiteral;
  error : option GeoError;
  requestRef : nat
}.

Definition init : State := {| coords := None; error := None; requestRef := 0 |}.

(** [locate()], with whether ['geolocation' in navigator]: the id of the
    request it issues is the new value of [requestRef]. *)
Definition locate (supported : bool) (s : State) : State :=
  if supported
  then {| coords := coords s; error := error s; requestRef := S (requestRef s) |}
  else {| coords := coords s; error := Some unsupported; requestRef := requestRef s |}.

(** The success and the error callback of the request [id]. *)
Definition onPosition (id : nat) (latitude longitude : float) (s : State) : State :=
  if decide (id ≠ requestRef s) then s
  else {| coords := Some {| lat := latitude; lng := longitude |};
          error := None; requestRef := requestRef s |}.

Definition onPositionError (id : nat) (err : option PositionError) (s : State) : State :=
  if decide (id ≠ requestRef s) then s
  else {| coords := coords s; error := Some (mapError err);
          requestRef := requestRef s |}.

Inductive Event :=
| Locate (supported : bool)
| Position (id : nat) (latitude longitude : float)
| Failure (id : nat) (err : option PositionError).

Definition step (s : State) (e : Event) : State :=
  match e with
  | Locate supported => locate supported s
  | Position id la ln => onPosition id la ln s
  | Failure id err => onPositionError id err s
  end.

Definition run (s : State) (tr : list Event) : State := fold_left step tr s.

End Geolocation.

(** ** [App]: the centre of the map and the messages *)

Module AppShell.
Import JS PlacesService.

(** The fallback centre of [App]. *)
Definition fallbackCenter : LatLngLiteral := {| lat := 39.8283; lng := -98.5795 |}.

(** The effect "Initialize map center": the new value of [mapCenter]. *)
Definition initCenter (userLocation mapCenter : option LatLngLiteral)
    : option LatLngLiteral :=
  match userLocation, mapCenter with
  | Some u, None => Some u
  | None, None => Some fallbackCenter
  | _, Some c => Some c
  end.

(** [handleMapIdle] *)
Definition handleMapIdle (center : LatLngLiteral) : option LatLngLiteral :=
  Some center.

(** What can change [mapCenter]: a commit in which the effect runs with
    the user location of that render, or a settled move of the map. *)
Inductive CenterEvent :=
| Commit (userLocation : option LatLngLiteral)
| MapIdle (center : LatLngLiteral).

Definition centerStep (mapCenter : option LatLngLiteral) (e : CenterEvent)
    : option LatLngLiteral :=
  match e with
  | Commit u => initCenter u mapCenter
  | MapIdle c => handleMapIdle c
  end.

(** [userFacingGeoError] *)
Definition userFacingGeoError (geoError : option Geolocation.GeoError) : string :=
  match geoError with
  | None => ""
  | Some e =>
      if decide (Geolocation.code e = "PERMISSION_DENIED")
      then "Location permission denied. Enable location access for better results or pan the map to refine search."
      else if decide (Geolocation.code e = "POSITION_UNAVAILABLE")
      then "Unable to determine your location. Please try again or move the map to search other areas."
      else if decide (Geolocation.code e = "TIMEOUT")
      then "Taking too long to get your location. You can refresh or move the map to continue."
      else "An error occurred while detecting your location."
  end.

End AppShell.

(** ** [MapView]: the idle handler, the centre and the user marker *)

Module MapEffects.
Import JS PlacesService.

(** *** The debounced idle handler

    Timer ids are the positive integers that [setTimeout] returns, so
    [if (idleTimerRef.current)] holds for every id stored. *)
Record IdleState := {
  idleTimerRef : option nat;
  pendingTimers : list nat;
  nextTimerId : nat;
  centerReports : list LatLngLiteral
}.

Definition idleInit : IdleState :=
  {| idleTimerRef := None; pendingTimers := []; nextTimerId := 1;
     centerReports := [] |}.

(** [handleIdle]: [clearTimeout] of the timer in the ref, then
    [setTimeout(..., 500)]. *)
Definition handleIdle (s : IdleState) : IdleState :=
  let live := match idleTimerRef s with
              | Some t => filter (λ t', t' ≠ t) (pendingTimers s)
              | None => pendingTimers s
              end in
  {| idleTimerRef := Some (nextTimerId s);
     pendingTimers := live ++ [nextTimerId s];
     nextTimerId := S (nextTimerId s);
     centerReports := centerReports s |}.

(** The timer [t] expires while [map.getCenter()] is [c]: the callback
    runs if the timer was not cleared, and calls [onCenterChanged]. *)
Definition timerExpires (t : nat) (c : option LatLngLiteral) (s : IdleState)
    : IdleState :=
  if decide (t ∈ pendingTimers s)
  then {| idleTimerRef := idleTimerRef s;
          pendingTimers := filter (λ t', t' ≠ t) (pendingTimers s);
          nextTimerId := nextTimerId s;
          centerReports := match c with
                           | Some c => centerReports s ++ [c]
                           | None => centerReports s
                           end |}
  else s.

Inductive IdleEvent :=
| Idle
| Expires (t : nat) (c : option LatLngLiteral).

Definition idleStep (s : IdleState) (e : IdleEvent) : IdleState :=
  match e with
  | Idle => handleIdle s
  | Expires t c => timerExpires t c s
  end.

(** *** The effect "Sync center externally controlled" *)

(** [!current || current.lat() !== center.lat || current.lng() !== center.lng] *)
Definition needsPan (current : option LatLngLiteral) (center : LatLngLiteral) : bool :=
  match current with
  | None => true
  | Some cur =>
      negb (lat cur =? lat center)%float || negb (lng cur =? lng center)%float
  end.

(** *** The user marker *)

Record UserMarker := { um_position : LatLngLiteral; um_onMap : bool }.

Record UserMarkerState := {
  userMarkerRef : option nat;
  userMarkers : gmap nat UserMarker;
  userMarkersMade : nat
}.

Definition userMarkerInit : UserMarkerState :=
  {| userMarkerRef := None; userMarkers := ∅; userMarkersMade := 0 |}.

(** The effect "User marker", with [ok] the truth of
    [status === 'ready' && google && mapRef.current]. *)
Definition userMarkerEffect (ok : bool) (userLocation : option LatLngLiteral)
    (s : UserMarkerState) : UserMarkerState :=
  if negb ok then s
  else
    match userLocation, userMarkerRef s with
    | Some u, None =>
        {| userMarkerRef := Some (userMarkersMade s);
           userMarkers := <[userMarkersMade s := {| um_position := u; um_onMap := true |}]>
                            (userMarkers s);
           userMarkersMade := S (userMarkersMade s) |}
    | Some u, Some k =>
        {| userMarkerRef := Some k;
           userMarkers := alter (λ m, {| um_position := u; um_onMap := um_onMap m |}) k
                                (userMarkers s);
           userMarkersMade := userMarkersMade s |}
    | None, Some k =>
        {| userMarkerRef := None;
           userMarkers := alter (λ m, {| um_position := um_position m; um_onMap := false |}) k
                                (userMarkers s);
           userMarkersMade := userMarkersMade s |}
    | None, None => s
    end.

End MapEffects.

(** ** [StationDetails]: the directions link *)

Module StationDetails.
Import JS Distance PlacesService.

(** *** [encodeURIComponent] on code units below 256 *)

(** The characters left as they are: letters, digits and [-_.!~*'()]. *)
Definition is_unreserved (c : ascii) : bool :=
  let n := N_of_ascii c in
  ((48 <=? n) && (n <=? 57) || (65 <=? n) && (n <=? 90) || (97 <=? n) && (n <=? 122)
   || (n =? 45) || (n =? 95) || (n =? 46) || (n =? 33) || (n =? 126)
   || (n =? 42) || (n =? 39) || (n =? 40) || (n =? 41))%N.

Definition hexDigit (n : N) : ascii :=
  if (n <? 10)%N then ascii_of_N (48 + n) else ascii_of_N (55 + n).

(** [%XX] for one octet. *)
Definition percent (octet : N) : string :=
  String "%" (String (hexDigit (octet / 16)) (String (hexDigit (octet mod 16)) EmptyString)).

(** The UTF-8 octets of one code unit, escaped: one octet below 128, two
    from 128 to 255. *)
Definition encodeUnit (c : ascii) : string :=
  let n := N_of_ascii c in
  if is_unreserved c then String c EmptyString
  else if (n <? 128)%N then percent n
  else percent (192 + n / 64) +:+ percent (128 + n mod 64).

Fixpoint encodeURIComponent (s : string) : string :=
  match s with
  | EmptyString => EmptyString
  | String c r => encodeUnit c +:+ encodeURIComponent r
  end.

Section WithEngine.
Context `{Engine}.

(** [`${lat},${lng}`] *)
Definition latLngText (la ln : float) : string :=
  Number_toString la +:+ "," +:+ Number_toString ln.

(** [station.vicinity || station.name || ''] *)
Definition addressText (station : Place) : string :=
  if truthy_opt (vicinity station) then default "" (vicinity station)
  else if truthy_opt (name station) then default "" (name station)
  else "".

(** The [destination] of the link; [None] when [station.geometry.location]
    is an object without a [lat] method, on which the call throws. *)
Definition destinationOf (station : Place) : option string :=
  match geometry_location station with
  | Some (LatLngObject la ln) => Some (latLngText la ln)
  | Some (LatLngPlain _) => None
  | None =>
      match location station with
      | Some l => Some (latLngText (lat l) (lng l))
      | None => Some (encodeURIComponent (addressText station))
      end
  end.

(** [directionsUrl] of the station shown (without a station the component
    renders nothing); [None] when computing the destination throws. *)
Definition directionsUrl (station : Place) (userLocation : option LatLngLiteral)
    : option string :=
  let origin := match userLocation with
                | Some u => latLngText (lat u) (lng u)
                | None => ""
                end in
  match destinationOf station with
  | Some destination =>
      Some ("https://www.google.com/maps/dir/?api=1&origin="
            +:+ encodeURIComponent origin
            +:+ "&destination=" +:+ encodeURIComponent destination
            +:+ "&travelmode=driving")
  | None => None
  end.
End WithEngine.

End StationDetails.

(** * The vocabulary of the properties *)

Import JS Distance FeatureFlags PlacesService MapView.

(** ** Numbers *)

(** [n] is the integer nearest to [p] times the number [x], the larger of
    the two on a tie: with [x = v * 2^e], twice [p * x] lies from
    [2 * n - 1] up to, but not at, [2 * n + 1]. *)
Definition nearestTo (p : Z) (x : float) (n : Z) : Prop :=
  match Prim2SF x with
  | S754_zero _ => n = 0%Z
  | S754_finite s mant e =>
      let v := if s then Z.neg mant else Z.pos mant in
      ((2 * n - 1) * 2 ^ Z.max 0 (- e) ≤ 2 * p * v * 2 ^ Z.max 0 e
       < (2 * n + 1) * 2 ^ Z.max 0 (- e))%Z
  | _ => False
  end.

(** ** The distance on the sphere *)

(** The arithmetic an expression is evaluated in: the four operations,
    the integer literals, pi, and the functions [haversineMeters] calls. *)
Class Arithmetic (A : Type) := {
  a_add : A → A → A;
  a_sub : A → A → A;
  a_mul : A → A → A;
  a_div : A → A → A;
  a_literal : Z → A;
  a_pi : A;
  a_sin : A → A;
  a_cos : A → A;
  a_atan2 : A → A → A;
  a_sqrt : A → A
}.



(** The exact arithmetic of the real numbers, and the haversine formula. *)
Module Sphere.
Import Stdlib.Reals.Reals.
Local Open Scope R_scope.


(** The angle of the point [(x, y)], in (-pi, pi]. *)
Definition atan2 (y x : R) : R :=
  if Rlt_dec 0 x then atan (y / x)
  else if Rlt_dec x 0
       then (if Rle_dec 0 y then atan (y / x) + PI else atan (y / x) - PI)
  else if Rlt_dec 0 y then PI / 2
  else if Rlt_dec y 0 then - (PI / 2)
  else 0.

#[export] Instance exact : Arithmetic R := {|
  a_add := Rplus; a_sub := Rminus; a_mul := Rmult; a_div := Rdiv;
  a_literal := IZR; a_pi := PI;
  a_sin := sin; a_cos := cos; a_atan2 := atan2; a_sqrt := sqrt
|}.





End Sphere.

(** ** Enrichment *)

(** The coordinates the fallback measures to: those of a
    [google.maps.LatLng] under [geometry.location], else those of
    [location]. *)
Definition positionOf (p : Place) : option (float * float) :=
  match geometry_location p with
  | Some (LatLngObject la ln) => Some (la, ln)
  | _ => (λ l, (lat l, lng l)) <$> location p
  end.

(** [q] is [p] up to the three enrichment properties. *)
Definition samePlace (p q : Place) : Prop :=
  place_id q = place_id p ∧ name q = name p ∧ vicinity q = vicinity p
  ∧ rating q = rating p ∧ geometry_location q = geometry_location p
  ∧ location q = location p.

(** What element [i] of the response row says, [None] where it says
    nothing (or where there is no element [i]). *)
Definition elementMeters (el : option Element) : option float :=
  (el ≫= distance) ≫= value.

Definition elementText (el : option Element) : option string :=
  (el ≫= distance) ≫= text.

Definition elementDuration (el : option Element) : option string :=
  (el ≫= duration) ≫= text.

(** The network-aware method is not used: the flag is off, there is no
    origin, there is no place, or the call fails. *)
Definition networkMethodUnused (google : Google) (origins : list LatLngLiteral)
    (places : list Place) (flags : gmap string bool) : Prop :=
  default false (flags !! "enableDistanceMatrix") = false
  ∨ origins = []
  ∨ places = []
  ∨ ∃ o, head origins = Some o ∧ awaitDistanceMatrix google o places = None.

(** The network-aware method is used and the call resolves with [resp]. *)
Definition networkMethodSucceeds (google : Google) (origins : list LatLngLiteral)
    (places : list Place) (flags : gmap string bool) (resp : Response) : Prop :=
  default false (flags !! "enableDistanceMatrix") = true
  ∧ places ≠ []
  ∧ ∃ o, head origins = Some o ∧ awaitDistanceMatrix google o places = Some resp.

(** ** Markers and cycles *)

(** The places that the markers of [markersRef] stand for, in order. *)
Definition markerPlaces (s : State) : list (option Place) :=
  (λ k, listener <$> markers s !! k) <$> markersRef s.

(** The handle of the live marker that stands for the place [id]. *)
Definition handleOf (s : State) (id : string) : option nat :=
  List.find (λ k, bool_decide ((markers s !! k ≫= λ m, place_id (listener m)) = Some id))
            (markersRef s).

(** What is published once a run has settled with [o]: on success the
    enriched list, no error and one marker per place; on failure the
    message and the empty list. *)
Definition publishedIs (s : State) (o : option (Settled (list Place))) : Prop :=
  match o with
  | Some (Resolved l) =>
      stations s = l ∧ listError s = "" ∧ markerPlaces s = Some <$> l
  | Some Rejected => stations s = [] ∧ listError s = failureMessage
  | None => True
  end.

(** The arguments of the last triggering event of a trace. *)
Definition lastTrigger (tr : list Event)
    : option (bool * option LatLngLiteral * option LatLngLiteral * gmap string bool) :=
  fold_left (λ acc e, match e with
                      | Render rdy c u fl => Some (rdy, c, u, fl)
                      | _ => acc
                      end) tr None.

(** Two marker heaps whose markers stand for the same places. *)
Definition sameListeners (h h' : gmap nat Marker) : Prop :=
  ∀ k, listener <$> h' !! k = listener <$> h !! k.

(** Two states that differ at most in the selection, the animations and
    the timers. *)
Definition sameCycles (s s' : State) : Prop :=
  stations s' = stations s ∧ listError s' = listError s
  ∧ runs s' = runs s ∧ cleanup s' = cleanup s
  ∧ markersRef s' = markersRef s ∧ sameListeners (markers s) (markers s').

(** The runs after React has called the cleanup it holds. *)
Definition cleaned (s : State) : list Run :=
  match cleanup s with
  | Some n => alter (setAlive false) n (runs s)
  | None => runs s
  end.

(** The invariant of the fetch effect, along a trace. *)
Section InvariantOfRuns.
Context `{Engine}.

Record Inv (tr : list Event) (s : State) : Prop := {
  (* only the run whose cleanup React holds is alive *)
  inv_alive : ∀ n r, runs s !! n = Some r → alive r = true → cleanup s = Some n;
  (* that run is the last one started, and it is alive *)
  inv_current : ∀ n, cleanup s = Some n →
                     S n = length (runs s) ∧ ∃ r, runs s !! n = Some r ∧ alive r = true;
  (* a settled run holds what its own inputs produced *)
  inv_outcome : ∀ n r o, runs s !! n = Some r → outcome r = Some o →
                         ∃ net, o = awaitStations net r;
  (* what is published is what the current run settled with *)
  inv_published : ∀ n r, cleanup s = Some n → runs s !! n = Some r →
                         publishedIs s (outcome r);
  (* the current run is the one of the last triggering event *)
  inv_trigger : match lastTrigger tr with
                | Some (true, Some c, u, fl) =>
                    ∃ n r, cleanup s = Some n ∧ runs s !! n = Some r
                      ∧ center r = c ∧ userLocation r = u ∧ flags r = fl
                | _ => cleanup s = None
                end
}.

End InvariantOfRuns.

(** ** Feature flags *)

(** The key and the boolean that a pair stores, if it stores one. *)
Definition entryOf (p : string) : option (string * bool) :=
  match trim <$> split (λ c, bool_decide (c = "="%char)) p with
  | k :: rest => if decide (k = "") then None else Some (k, flagValue (head rest))
  | [] => None
  end.

(** The entries of an environment string, in the order of its pairs. *)
Definition entriesOf (envString : string) : list (string * bool) :=
  omap entryOf (pairsOf envString).

(** ** Concrete engines, places, providers and traces *)

(** An engine for the closed examples below: truncated power series, close
    enough for points a few kilometers apart; no proof depends on how it
    answers. *)
Definition exampleEngine : Engine :=
  {| Math_sin := λ x, (x - x * x * x / 6 + x * x * x * x * x / 120)%float;
     Math_cos := λ x, (1 - x * x / 2 + x * x * x * x / 24
                       - x * x * x * x * x * x / 720)%float;
     Math_atan2 := λ y x, (y / x - (y / x) * (y / x) * (y / x) / 3)%float;
     Number_toString_shortest := λ _, "" |}.

Definition station (id nm : string) (la ln : float) : Place :=
  {| place_id := Some id; name := Some nm; vicinity := None; rating := None;
     geometry_location := Some (LatLngObject la ln); location := None;
     distanceMeters := None; distanceText := None; durationText := None |}.

Definition stationA : Place := station "a" "Alpha Fuel" 39.83 (-98.58).
Definition stationB : Place := station "b" "Bravo Gas" 39.84 (-98.57).
Definition stationC : Place := station "c" "Charlie Oil" 39.82 (-98.59).

Definition userAt : LatLngLiteral := {| lat := 39.8283; lng := -98.5795 |}.

Definition flagsOff : gmap string bool := ∅.
Definition flagsOn : gmap string bool := {[ "enableDistanceMatrix" := true ]}.

(** A provider that finds [found] and answers the distance matrix call
    with the row [els]. *)
Definition provider (found : list Place) (els : list Element) : Google :=
  {| nearbySearch := λ _, CallsBack (Some found) "OK";
     getDistanceMatrix :=
       λ _, CallsBack (Some {| rows := Some [ {| elements := Some els |} ] |}) "OK" |}.

(** A provider whose place search fails. *)
Definition unreachable : Google :=
  {| nearbySearch := λ _, CallsBack None "UNKNOWN_ERROR";
     getDistanceMatrix := λ _, Throws |}.

Definition rowOf (els : list Element) : Response :=
  {| rows := Some [ {| elements := Some els |} ] |}.

Definition elementOk (m : float) (t d : string) : Element :=
  {| status := "OK";
     distance := Some {| value := Some m; text := Some t |};
     duration := Some {| value := None; text := Some d |} |}.

(** An element with a distance value and no distance text. *)
Definition elementValueOnly (m : float) (d : string) : Element :=
  {| status := "OK";
     distance := Some {| value := Some m; text := None |};
     duration := Some {| value := None; text := Some d |} |}.

(** An element that carries an error code instead of a distance. *)
Definition elementNotFound : Element :=
  {| status := "NOT_FOUND"; distance := None; duration := None |}.

(** A provider that answers the distance matrix call destination by
    destination, and one such answer: the latitude of the destination as
    the distance value. *)
Definition answering (f : Destination → Element) : Google :=
  {| nearbySearch := λ _, Throws;
     getDistanceMatrix :=
       λ request, CallsBack (Some (rowOf (f <$> destinations request))) "OK" |}.

Definition byLatitude (d : Destination) : Element :=
  match d with
  | DestLatLng la _ => elementOk la "near" "soon"
  | DestText _ => elementNotFound
  end.

Definition centerOne : LatLngLiteral := {| lat := 39.8283; lng := -98.5795 |}.
Definition centerTwo : LatLngLiteral := {| lat := 40.0; lng := -98.0 |}.

(** Two overlapping runs; the second settles first. *)
Definition overlapping : list Event :=
  [ Render true (Some centerOne) None flagsOff;
    Render true (Some centerTwo) None flagsOff;
    Settle 1 (provider [stationB] []);
    Settle 0 (provider [stationA] []) ].

(** A run that publishes two stations, then a run whose place query
    fails. *)
Definition thenUnreachable : list Event :=
  [ Render true (Some centerOne) None flagsOff;
    Settle 0 (provider [stationA; stationB] []);
    Render true (Some centerTwo) None flagsOff ].

(** Two stations on the map, then the second one is selected. *)
Definition selectSecond : list Event :=
  [ Render true (Some centerOne) None flagsOff;
    Settle 0 (provider [stationA; stationB] []);
    Select (Some stationB) ].

(** The scenario of the specification: three places found around the
    default centre with the flag off, then two of them around another one. *)
Definition scenario : list Event :=
  [ Render true (Some centerOne) (Some userAt) flagsOff;
    Settle 0 (provider [stationA; stationB; stationC] []);
    Render true (Some centerTwo) (Some userAt) flagsOff;
    Settle 1 (provider [stationA; stationB] []) ].

(** ** Strings *)

(** Every code unit of [s] satisfies [P]. *)
Fixpoint AllChars (P : ascii → Prop) (s : string) : Prop :=
  match s with
  | EmptyString => True
  | String c r => P c ∧ AllChars P r
  end.

(** A code unit that separates neither pairs nor key from value. *)
Definition plainUnit (c : ascii) : Prop :=
  c ≠ "="%char ∧ c ≠ ";"%char ∧ c ≠ ","%char.

(** ** Marker objects and the map *)

(** The marker objects made so far are accounted for: each has a handle
    below [allocated], the handles of [markersRef] are distinct and their
    markers are on the map, and no other marker is. *)
Definition markersAccounted (s : State) : Prop :=
  (∀ k m, markers s !! k = Some m → k < allocated s)
  ∧ (∀ k, k ∈ markersRef s → ∃ m, markers s !! k = Some m ∧ onMap m = true)
  ∧ (∀ k m, markers s !! k = Some m → onMap m = true → k ∈ markersRef s)
  ∧ NoDup (markersRef s).

(** Two states with the same list, refs and counter whose markers are on
    the map alike. *)
Definition sameOnMap (s s' : State) : Prop :=
  stations s' = stations s ∧ markersRef s' = markersRef s
  ∧ allocated s' = allocated s
  ∧ ∀ k, onMap <$> markers s' !! k = onMap <$> markers s !! k.

(** Nothing shown exceeds the cap on results. *)
Definition withinCap (s : State) : Prop :=
  length (stations s) ≤ maxMarkers ∧ length (markersRef s) ≤ maxMarkers.

(** ** The station list *)

(** The clicks on the pagination bar, and the page they lead to. *)
Inductive Click := Next | Prev.

Definition navigate (stations : list Place) (page : Z) (clicks : list Click) : Z :=
  fold_left (λ p c, match c with
                    | Next => StationList.handleNext stations p
                    | Prev => StationList.handlePrev p
                    end) clicks page.

(** The pages of the pagination bar, first to last. *)
Definition pageNumbers (stations : list Place) : list Z :=
  Z.of_nat <$> seq 1 (Z.to_nat (StationList.pages stations)).

(** ** Geolocation *)

(** The requests issued in a trace: the calls of [locate] in a browser
    that has geolocation. *)
Definition issued (tr : list Geolocation.Event) : nat :=
  sum_list ((λ e, match e with Geolocation.Locate true => 1 | _ => 0 end) <$> tr).

(** The codes of the errors that the hook reports. *)
Definition geoCodes : list string :=
  ["PERMISSION_DENIED"; "POSITION_UNAVAILABLE"; "TIMEOUT"; "UNKNOWN"; "UNSUPPORTED"].

(** An error that can be shown: a known code, and a message that is
    neither empty nor longer than 180 units. *)
Definition presentable (e : Geolocation.GeoError) : Prop :=
  Geolocation.code e ∈ geoCodes
  ∧ Geolocation.message e ≠ ""
  ∧ String.length (Geolocation.message e) ≤ 180.

(** ** The centre of the map *)

(** The centre of the last settled move of the map in a trace. *)
Definition lastIdle (tr : list AppShell.CenterEvent) : option LatLngLiteral :=
  last (omap (λ e, match e with
                   | AppShell.MapIdle c => Some c
                   | AppShell.Commit _ => None
                   end) tr).

(** ** Idle events and the user marker *)

(** The idle events of a trace. *)
Definition idles (tr : list MapEffects.IdleEvent) : nat :=
  sum_list ((λ e, match e with
                  | MapEffects.Idle => 1
                  | MapEffects.Expires _ _ => 0
                  end) <$> tr).

(** At most one timer is pending, and it is the one in the ref. *)
Definition oneTimer (s : MapEffects.IdleState) : Prop :=
  MapEffects.pendingTimers s = []
  ∨ ∃ t, MapEffects.idleTimerRef s = Some t ∧ MapEffects.pendingTimers s = [t].

(** The runs of the user-marker effect: for each, whether the map is
    there, and the user location of that render. *)
Definition userMarkerRuns (tr : list (bool * option LatLngLiteral))
    : MapEffects.UserMarkerState :=
  fold_left (λ s r, MapEffects.userMarkerEffect r.1 r.2 s) tr MapEffects.userMarkerInit.

(** The user markers made so far are accounted for: each has a handle
    below the counter and is on the map exactly when the ref holds it, and
    the ref holds a marker that was made. *)
Definition userMarkerOk (s : MapEffects.UserMarkerState) : Prop :=
  (∀ k m, MapEffects.userMarkers s !! k = Some m →
     k < MapEffects.userMarkersMade s
     ∧ (MapEffects.um_onMap m = true ↔ MapEffects.userMarkerRef s = Some k))
  ∧ (∀ k, MapEffects.userMarkerRef s = Some k →
       is_Some (MapEffects.userMarkers s !! k)).

(** ** The directions link *)

(** A code unit that is left as it is, and one that an escaped string
    may hold. *)
Definition unreservedUnit (c : ascii) : Prop := StationDetails.is_unreserved c = true.

Definition urlSafe (c : ascii) : Prop := unreservedUnit c ∨ c = "%"%char.

(** A station known by its address alone. *)
Definition stationByAddress : Place :=
  {| place_id := Some "d"; name := Some "Delta Fuel"; vicinity := Some "1 Main St, Lebanon";
     rating := None; geometry_location := None; location := None;
     distanceMeters := None; distanceText := None; durationText := None |}.

(** ** Before the map is ready *)

(** No render of the trace has both the loader ready and a centre. *)
Definition neverReady (tr : list Event) : Prop :=
  ∀ rdy c u fl, Render rdy c u fl ∈ tr → rdy = false ∨ c = None.

(** * Properties *)

(** ** Formatting distances *)

Lemma string_length_app (s1 s2 : string) :
  String.length (s1 +:+ s2) = String.length s1 + String.length s2.
Proof. induction s1 as [|c s1 IH]; simpl; [done|]. by rewrite IH. Qed.

Lemma string_length_substring (s : string) (n m : nat) :
  n + m ≤ String.length s → String.length (String.substring n m s) = m.
Proof.
  revert n m. induction s as [|c s IH]; intros n m Hle; simpl in *.
  - destruct n, m; simpl; lia.
  - destruct n as [|n]; [destruct m as [|m]|]; simpl; [done| |].
    + rewrite IH; [done|lia].
    + apply IH. lia.
Qed.

Lemma string_length_zeros (k : nat) : String.length (zeros k) = k.
Proof. induction k as [|k IH]; simpl; [done|]. by rewrite IH. Qed.

(** With [f > 0] fraction digits, the digits of [toFixed] are a non-empty
    whole part, a point, and exactly [f] digits; with none, they are the
    decimal digits of the rounded integer. *)
Lemma fixed_digits_fraction (n : Z) (f : nat) :
  ∃ a b, fixed_digits n (S f) = a +:+ "." +:+ b
    ∧ String.length b = S f ∧ 0 < String.length a.
Proof.
  unfold fixed_digits.
  set (m := if decide (String.length (decimal n) ≤ S f) then _ else _).
  assert (Hlen : S f < String.length m).
  { subst m. case_decide as Hk; [|lia].
    rewrite string_length_app, string_length_zeros. lia. }
  eexists _, _. split; [reflexivity|].
  rewrite !string_length_substring by lia. lia.
Qed.

Lemma fixed_digits_whole (n : Z) : fixed_digits n 0 = decimal n.
Proof. reflexivity. Qed.

(** *** The value of a number, from its representation *)

Lemma digits2_pos_bound (m : positive) : (Z.pos m < 2 ^ Z.pos (digits2_pos m))%Z.
Proof.
  induction m as [m IH|m IH|]; simpl digits2_pos;
    rewrite ?Pos2Z.inj_succ, ?Z.pow_succ_r by lia; lia.
Qed.

Lemma finite_mantissa_bound (x : float) s mant e :
  Prim2SF x = S754_finite s mant e → (Z.pos mant < 2 ^ 53)%Z.
Proof.
  intros Hx. pose proof (Prim2SF_valid x) as Hv. rewrite Hx in Hv.
  unfold SpecFloat.valid_binary, bounded, canonical_mantissa, fexp in Hv.
  apply andb_true_iff in Hv as [Hc _]. apply Z.eqb_eq in Hc.
  pose proof (digits2_pos_bound mant) as Hd.
  assert (Hle : (Z.pos (digits2_pos mant) ≤ 53)%Z) by (unfold prec in Hc; lia).
  eapply Z.lt_le_trans; [exact Hd|]. apply Z.pow_le_mono_r; lia.
Qed.

Lemma below_threshold (t : float) (T k : Z) (x : float) mant e :
  (0 < k)%Z → (0 < T)%Z → (2 ^ 53 ≤ 2 * T * 2 ^ k)%Z →
  Prim2SF t = S754_finite false (Z.to_pos (T * 2 ^ k)) (- k) →
  Prim2SF x = S754_finite false mant e →
  (x <? t)%float = true →
  (e < 0)%Z ∧ (Z.pos mant < T * 2 ^ (- e))%Z.
Proof.
  intros Hk HT Hbig Ht Hx Hlt. rewrite FloatAxioms.ltb_spec, Hx, Ht in Hlt.
  unfold SFltb, SFcompare in Hlt.
  pose proof (finite_mantissa_bound _ _ _ _ Hx) as Hm.
  assert (Hpos : (0 < T * 2 ^ k)%Z) by (apply Z.mul_pos_pos; [done|apply Z.pow_pos_nonneg; lia]).
  destruct (Z.compare_spec e (- k)) as [->|Hlt'|Hgt]; [| |done].
  - change (PosDef.Pos.compare_cont Eq mant (Z.to_pos (T * 2 ^ k)))
      with (Pos.compare mant (Z.to_pos (T * 2 ^ k))) in Hlt.
    destruct (Pos.compare_spec mant (Z.to_pos (T * 2 ^ k))) as [?|Hc|?]; try done.
    apply Pos2Z.pos_lt_pos in Hc. rewrite Z2Pos.id in Hc by done.
    split; [lia|]. by rewrite Z.opp_involutive.
  - split; [lia|].
    assert (Hpow : (2 * 2 ^ k ≤ 2 ^ (- e))%Z).
    { rewrite <- Z.pow_succ_r by lia. apply Z.pow_le_mono_r; lia. }
    nia.
Qed.

Lemma at_least_positive (t x : float) mt et :
  Prim2SF t = S754_finite false mt et →
  Number_isNaN x = false → (x <? t)%float = false →
  (∃ mant e, Prim2SF x = S754_finite false mant e) ∨ Prim2SF x = S754_infinity false.
Proof.
  intros Ht. unfold Number_isNaN, PrimFloat.is_nan.
  rewrite FloatAxioms.ltb_spec, FloatAxioms.eqb_spec, Ht.
  destruct (Prim2SF x) as [s|s| |s mant e]; simpl; try done.
  - destruct s; [done|]. by right.
  - destruct s; [done|]. intros _ _. left. eauto.
Qed.

Lemma div_positive (x y : float) mx ex my ey :
  Prim2SF x = S754_finite false mx ex → Prim2SF y = S754_finite false my ey →
  match Prim2SF (x / y) with
  | S754_zero s | S754_infinity s | S754_finite s _ _ => s = false
  | S754_nan => True
  end.
Proof.
  intros Hx Hy. rewrite FloatAxioms.div_spec, Hx, Hy. unfold SF64div, SFdiv.
  destruct (SFdiv_core_binary _ _ _ _ _ _) as [[mz ez] lz].
  unfold binary_round_aux.
  destruct (shr_fexp _ _ _ _ _) as [mrs' e'].
  destruct (shr_fexp _ _ _ _ _) as [mrs'' e''].
  destruct (shr_m mrs''); [done| |done]. by destruct (_ <=? _)%Z.
Qed.

Lemma digits2_pos_lower (m : positive) : (2 ^ (Z.pos (digits2_pos m) - 1) ≤ Z.pos m)%Z.
Proof.
  induction m as [m IH|m IH|]; simpl digits2_pos; [| |done];
    rewrite Pos2Z.inj_succ;
    replace (Z.succ (Z.pos (digits2_pos m)) - 1)%Z
      with (Z.succ (Z.pos (digits2_pos m) - 1)) by lia;
    rewrite Z.pow_succ_r by lia; lia.
Qed.

Lemma finite_mantissa_normal (x : float) s mant e :
  Prim2SF x = S754_finite s mant e → (-1074 < e)%Z → (2 ^ 52 ≤ Z.pos mant)%Z.
Proof.
  intros Hx He. pose proof (Prim2SF_valid x) as Hv. rewrite Hx in Hv.
  unfold SpecFloat.valid_binary, bounded, canonical_mantissa, fexp in Hv.
  apply andb_true_iff in Hv as [Hc _]. apply Z.eqb_eq in Hc.
  unfold SpecFloat.emin, prec, emax in Hc.
  pose proof (digits2_pos_lower mant) as Hd.
  assert (Hdig : Z.pos (digits2_pos mant) = 53%Z) by lia.
  by rewrite Hdig in Hd.
Qed.

Lemma at_least_threshold (t : float) (T k : Z) (x : float) mant e :
  (0 < k < 1074)%Z → (0 < T)%Z → (T * 2 ^ k < 2 ^ 53)%Z →
  Prim2SF t = S754_finite false (Z.to_pos (T * 2 ^ k)) (- k) →
  Prim2SF x = S754_finite false mant e →
  (x <? t)%float = false →
  (0 ≤ e ∧ 2 ^ 52 ≤ Z.pos mant)%Z ∨ (e < 0 ∧ T * 2 ^ (- e) ≤ Z.pos mant)%Z.
Proof.
  intros Hk HT Hsmall Ht Hx Hlt. rewrite FloatAxioms.ltb_spec, Hx, Ht in Hlt.
  unfold SFltb, SFcompare in Hlt.
  assert (Hpos : (0 < T * 2 ^ k)%Z)
    by (apply Z.mul_pos_pos; [done|apply Z.pow_pos_nonneg; lia]).
  destruct (Z.compare_spec e (- k)) as [->|Hlt'|Hgt]; [|done|].
  - right. split; [lia|]. rewrite Z.opp_involutive.
    change (PosDef.Pos.compare_cont Eq mant (Z.to_pos (T * 2 ^ k)))
      with (Pos.compare mant (Z.to_pos (T * 2 ^ k))) in Hlt.
    destruct (Pos.compare_spec mant (Z.to_pos (T * 2 ^ k))) as [Hc|?|Hc]; [|done|].
    + rewrite Hc, Z2Pos.id by done. lia.
    + apply Pos2Z.pos_lt_pos in Hc. rewrite Z2Pos.id in Hc by done. lia.
  - pose proof (finite_mantissa_normal _ _ _ _ Hx) as Hn.
    destruct (Z.leb_spec 0 e) as [He|He]; [left; split; [done|apply Hn; lia]|].
    right. split; [done|]. specialize (Hn ltac:(lia)).
    assert (Hpow : (2 * 2 ^ (- e) ≤ 2 ^ k)%Z).
    { rewrite <- Z.pow_succ_r by lia. apply Z.pow_le_mono_r; lia. }
    nia.
Qed.

Lemma SFltb_SFleb_finite m1 e1 m2 e2 :
  SFltb (S754_finite false m1 e1) (S754_finite false m2 e2) = true →
  SFleb (S754_finite false m2 e2) (S754_finite false m1 e1) = false.
Proof.
  unfold SFltb, SFleb, SFcompare. rewrite (Z.compare_antisym e1 e2).
  destruct (e1 ?= e2)%Z; cbn [CompOpp]; [|done|done].
  change (PosDef.Pos.compare_cont Eq m2 m1)
    with (Pos.compare_cont (CompOpp Eq) m2 m1).
  rewrite <- (Pos.compare_cont_antisym m1 m2 Eq).
  by destruct (Pos.compare_cont Eq m1 m2).
Qed.

Lemma round_half_up (v d : Z) :
  (0 < d)%Z →
  let n := ((2 * v + d) / (2 * d))%Z in
  ((2 * n - 1) * d ≤ 2 * v < (2 * n + 1) * d)%Z.
Proof.
  intros Hd n. pose proof (Z.div_mod (2 * v + d) (2 * d)) as Hdm.
  pose proof (Z.mod_pos_bound (2 * v + d) (2 * d)) as Hb.
  fold n in Hdm. nia.
Qed.

(** The nearest integer is determined. *)
Lemma nearestTo_unique (p : Z) (x : float) (n n' : Z) :
  nearestTo p x n → nearestTo p x n' → n = n'.
Proof.
  unfold nearestTo. destruct (Prim2SF x) as [s|s| |s mant e]; [congruence|done|done|].
  cbv zeta. intros Hn Hn'.
  assert (Hd : (0 < 2 ^ Z.max 0 (- e))%Z) by (apply Z.pow_pos_nonneg; lia).
  nia.
Qed.

Lemma fixed_digits_tenths (n : Z) :
  (0 ≤ n ≤ 100)%Z →
  fixed_digits n 1 = decimal (n / 10) +:+ "." +:+ decimal (n mod 10).
Proof.
  intros Hn.
  assert (Hall : forallb (λ k, String.eqb (fixed_digits (Z.of_nat k) 1)
                                 (decimal (Z.of_nat k / 10) +:+ "." +:+
                                  decimal (Z.of_nat k mod 10)))
                         (seq 0 101) = true) by (vm_compute; reflexivity).
  rewrite forallb_forall in Hall. specialize (Hall (Z.to_nat n)).
  rewrite Z2Nat.id in Hall by lia. apply String.eqb_eq, Hall.
  apply in_seq. lia.
Qed.

Section FormatDistance.
Context `{Engine}.
Local Open Scope float_scope.

(** A finite number below 10^21 in magnitude prints, through [toFixed],
    as its sign and the digits of an integer. *)
Lemma Number_toFixed_finite (x : float) (f : nat) s m e :
  Prim2SF x = S754_finite s m e → (1e21 <=? PrimFloat.abs x) = false →
  ∃ n, Number_toFixed x f = (if s then "-" else "") +:+ fixed_digits n f.
Proof.
  intros Hx Hbig. unfold Number_toFixed. rewrite Hx, Hbig. by eexists.
Qed.

Lemma formatDistance_meters (m : float) :
  Number_isNaN m = false → (m <? 1000) = true →
  formatDistance (Num m) = Number_toString (Math_round m) +:+ " m".
Proof. intros Hnan Hlt. unfold formatDistance. by rewrite Hnan, Hlt. Qed.

Lemma formatDistance_km (m : float) :
  Number_isNaN m = false → (m <? 1000) = false →
  formatDistance (Num m) =
    Number_toFixed (metersToKm m) (if metersToKm m <? 10 then 1 else 0) +:+ " km".
Proof. intros Hnan Hlt. unfold formatDistance. by rewrite Hnan, Hlt. Qed.

(** Between 1000 m and 10 km the text has exactly one digit after the
    point: for a finite number of kilometers it is the sign, a non-empty
    whole part, the point, one digit and " km". *)
Lemma formatDistance_km_one_fraction_digit (m : float) s mant e :
  Number_isNaN m = false → (m <? 1000) = false → (metersToKm m <? 10) = true →
  Prim2SF (metersToKm m) = S754_finite s mant e →
  (1e21 <=? PrimFloat.abs (metersToKm m)) = false →
  ∃ a b, formatDistance (Num m)
         = ((if s then "-" else "") +:+ (a +:+ "." +:+ b)) +:+ " km"
    ∧ String.length b = 1%nat ∧ (0 < String.length a)%nat.
Proof.
  intros Hnan Hlt Hkm Hfin Hbig. rewrite formatDistance_km, Hkm by done.
  destruct (Number_toFixed_finite _ 1 _ _ _ Hfin Hbig) as [n ->].
  destruct (fixed_digits_fraction n 0) as (a & b & -> & Hb & Ha).
  by exists a, b.
Qed.

Lemma Number_toString_small (r : Z) :
  (0 ≤ r ≤ 1000)%Z → Number_toString (number_of_Z r) = decimal r.
Proof.
  intros Hr.
  assert (Hall : forallb (λ k, String.eqb (Number_toString (number_of_Z (Z.of_nat k)))
                                 (decimal (Z.of_nat k)))
                         (seq 0 1001) = true) by (vm_compute; reflexivity).
  rewrite forallb_forall in Hall. specialize (Hall (Z.to_nat r)).
  rewrite Z2Nat.id in Hall by lia. apply String.eqb_eq, Hall.
  apply in_seq. lia.
Qed.

Lemma ltb_not_nan (x t : float) : (x <? t) = true → Number_isNaN x = false.
Proof.
  unfold Number_isNaN, PrimFloat.is_nan.
  rewrite FloatAxioms.ltb_spec, FloatAxioms.eqb_spec.
  destruct (Prim2SF x) as [s|s| |s mant e]; simpl; try done.
  - by destruct s.
  - intros _. unfold SFeqb, SFcompare. rewrite Z.compare_refl.
    change (PosDef.Pos.compare_cont Eq mant mant) with (Pos.compare mant mant).
    rewrite Pos.compare_refl. by destruct s.
Qed.

Lemma thousand_spec : Prim2SF 1000 = S754_finite false (Z.to_pos (1000 * 2 ^ 43)) (- 43).
Proof. vm_compute. reflexivity. Qed.

Lemma ten_spec : Prim2SF 10 = S754_finite false (Z.to_pos (10 * 2 ^ 49)) (- 49).
Proof. vm_compute. reflexivity. Qed.

(** Below 1000 m: whole meters. *)
Lemma formatDistance_whole_meters (m : float) :
  (0 <=? m) = true → (m <? 1000) = true →
  ∃ n, (0 ≤ n ≤ 1000)%Z ∧ nearestTo 1 m n
    ∧ formatDistance (Num m) = decimal n +:+ " m".
Proof.
  intros Hge Hlt. rewrite formatDistance_meters by (by eauto using ltb_not_nan).
  pose proof Hlt as Hlt'.
  rewrite FloatAxioms.leb_spec in Hge. rewrite FloatAxioms.ltb_spec in Hlt'.
  unfold nearestTo, Math_round.
  destruct (Prim2SF m) as [s|s| |s mant e] eqn:Hm.
  - exists 0%Z. split; [lia|]. split; [done|].
    unfold Number_toString. by rewrite Hm.
  - by destruct s.
  - done.
  - destruct s; [done|].
    destruct (below_threshold 1000 1000 43 m mant e) as [He Hmant];
      [lia|lia|vm_compute; congruence|apply thousand_spec|done|done|].
    rewrite (proj2 (Z.leb_gt 0 e)) by lia. rewrite andb_false_r.
    assert (Hd : (0 < 2 ^ (- e))%Z) by (apply Z.pow_pos_nonneg; lia).
    pose proof (round_half_up (Z.pos mant) (2 ^ (- e)) Hd) as Hr. cbv zeta in Hr.
    set (n := ((2 * Z.pos mant + 2 ^ (- e)) / (2 * 2 ^ (- e)))%Z) in *.
    assert (Hn : (0 ≤ n ≤ 1000)%Z) by nia.
    exists n. split; [done|]. split; [|by rewrite Number_toString_small].
    rewrite (Z.max_r 0 (- e)), (Z.max_l 0 e) by lia. simpl (2 ^ 0)%Z. lia.
Qed.

(** From 1000 m on and below 10 km: one digit after the point. *)
Lemma formatDistance_tenths (m : float) :
  Number_isNaN m = false → (m <? 1000) = false → (metersToKm m <? 10) = true →
  ∃ n, (0 ≤ n ≤ 100)%Z ∧ nearestTo 10 (metersToKm m) n
    ∧ formatDistance (Num m)
      = (decimal (n / 10) +:+ "." +:+ decimal (n mod 10)) +:+ " km".
Proof.
  intros Hnan Hge Hkm. rewrite formatDistance_km, Hkm by done.
  assert (Hsign : match Prim2SF (metersToKm m) with
                  | S754_zero s | S754_infinity s | S754_finite s _ _ => s = false
                  | S754_nan => True
                  end).
  { destruct (at_least_positive 1000 m _ _ thousand_spec Hnan Hge)
      as [(mant & e & Hm)|Hm].
    - apply (div_positive m 1000 _ _ _ _ Hm thousand_spec).
    - unfold metersToKm. rewrite FloatAxioms.div_spec, Hm, thousand_spec. done. }
  pose proof Hkm as Hkm'. rewrite FloatAxioms.ltb_spec in Hkm'.
  unfold nearestTo, Number_toFixed.
  destruct (Prim2SF (metersToKm m)) as [s|s| |s mant e] eqn:Hk.
  - exists 0%Z. split; [lia|]. split; [done|]. reflexivity.
  - subst s. done.
  - done.
  - subst s.
    destruct (below_threshold 10 10 49 (metersToKm m) mant e) as [He Hmant];
      [lia|lia|vm_compute; congruence|apply ten_spec|done|done|].
    assert (Hbig : (1e21 <=? PrimFloat.abs (metersToKm m)) = false).
    { rewrite FloatAxioms.leb_spec, abs_spec, Hk.
      change (Prim2SF 1e21) with (S754_finite false 7629394531250000 17).
      unfold SFleb, SFcompare, SFabs.
      destruct (Z.compare_spec 17 e); [lia|lia|done]. }
    rewrite Hbig. rewrite (proj2 (Z.leb_gt 0 e)) by lia.
    assert (Hd : (0 < 2 ^ (- e))%Z) by (apply Z.pow_pos_nonneg; lia).
    change (10 ^ Z.of_nat 1)%Z with 10%Z.
    replace (2 * Z.pos mant * 10)%Z with (2 * (10 * Z.pos mant))%Z by lia.
    pose proof (round_half_up (10 * Z.pos mant) (2 ^ (- e)) Hd) as Hr. cbv zeta in Hr.
    set (n := ((2 * (10 * Z.pos mant) + 2 ^ (- e)) / (2 * 2 ^ (- e)))%Z) in *.
    assert (Hn : (0 ≤ n ≤ 100)%Z) by nia.
    exists n. split; [done|]. split.
    + rewrite (Z.max_r 0 (- e)), (Z.max_l 0 e) by lia. simpl (2 ^ 0)%Z. lia.
    + rewrite fixed_digits_tenths by exact Hn. reflexivity.
Qed.

(** From 10 km on: no digit after the point. *)
Lemma formatDistance_whole_km (m : float) :
  Number_isNaN m = false → (m <? 1000) = false →
  (metersToKm m <? 10) = false → (metersToKm m <? 1e21) = true →
  ∃ n, (10 ≤ n)%Z ∧ nearestTo 1 (metersToKm m) n
    ∧ formatDistance (Num m) = decimal n +:+ " km".
Proof.
  intros Hnan Hge Hkm Hfar. rewrite formatDistance_km, Hkm by done.
  assert (Hsign : match Prim2SF (metersToKm m) with
                  | S754_zero s | S754_infinity s | S754_finite s _ _ => s = false
                  | S754_nan => True
                  end).
  { destruct (at_least_positive 1000 m _ _ thousand_spec Hnan Hge)
      as [(mant & e & Hm)|Hm].
    - apply (div_positive m 1000 _ _ _ _ Hm thousand_spec).
    - unfold metersToKm. rewrite FloatAxioms.div_spec, Hm, thousand_spec. done. }
  pose proof Hfar as Hfar'. rewrite FloatAxioms.ltb_spec in Hfar'.
  pose proof Hkm as Hkm'. rewrite FloatAxioms.ltb_spec in Hkm'.
  change (Prim2SF 1e21) with (S754_finite false 7629394531250000 17) in Hfar'.
  unfold nearestTo, Number_toFixed.
  destruct (Prim2SF (metersToKm m)) as [s|s| |s mant e] eqn:Hk.
  - rewrite ten_spec in Hkm'. subst s. done.
  - subst s. done.
  - done.
  - subst s.
    assert (Hbig : (1e21 <=? PrimFloat.abs (metersToKm m)) = false).
    { rewrite FloatAxioms.leb_spec, abs_spec, Hk.
      change (Prim2SF 1e21) with (S754_finite false 7629394531250000 17).
      by apply SFltb_SFleb_finite. }
    rewrite Hbig. change (10 ^ Z.of_nat 0)%Z with 1%Z. unfold fixed_digits.
    destruct (at_least_threshold 10 10 49 (metersToKm m) mant e)
      as [[He Hmant]|[He Hmant]];
      [lia|lia|vm_compute; congruence|apply ten_spec|done|done| |].
    + rewrite (proj2 (Z.leb_le 0 e)) by done.
      exists (Z.pos mant * 2 ^ e * 1)%Z.
      assert (0 < 2 ^ e)%Z by (apply Z.pow_pos_nonneg; lia).
      assert (2 ^ 52 = 4503599627370496)%Z as Hp by reflexivity.
      split; [nia|]. split; [|done].
      rewrite (Z.max_l 0 (- e)), (Z.max_r 0 e) by lia. simpl (2 ^ 0)%Z. lia.
    + rewrite (proj2 (Z.leb_gt 0 e)) by done.
      assert (Hd : (0 < 2 ^ (- e))%Z) by (apply Z.pow_pos_nonneg; lia).
      replace (2 * Z.pos mant * 1)%Z with (2 * Z.pos mant)%Z by lia.
      pose proof (round_half_up (Z.pos mant) (2 ^ (- e)) Hd) as Hr. cbv zeta in Hr.
      set (n := ((2 * Z.pos mant + 2 ^ (- e)) / (2 * 2 ^ (- e)))%Z) in *.
      exists n. split; [nia|]. split; [|done].
      rewrite (Z.max_r 0 (- e)), (Z.max_l 0 e) by lia. simpl (2 ^ 0)%Z. lia.
Qed.
(** C8. A distance from 0 up to 1000 m prints as whole meters: the
    decimal digits of the integer nearest to it, then " m".  From 1000 m
    on it prints in kilometers, " km" last: while the number of kilometers
    is below 10, as the integer nearest to ten times that number with a
    point before its last digit, so with one decimal; from 10 on (and
    below 10^21), as the decimal digits of the nearest integer, so with
    none.  The four boundary values print as "999 m", "1.0 km", "10.0 km"
    and "10 km". *)
Theorem formatDistance_rule :
  (∀ m, (0 <=? m) = true → (m <? 1000) = true →
     ∃ n, (0 ≤ n ≤ 1000)%Z ∧ nearestTo 1 m n
       ∧ formatDistance (Num m) = decimal n +:+ " m")
  ∧ (∀ m, Number_isNaN m = false → (m <? 1000) = false →
       (metersToKm m <? 10) = true →
       ∃ n, (0 ≤ n ≤ 100)%Z ∧ nearestTo 10 (metersToKm m) n
         ∧ formatDistance (Num m)
           = (decimal (n / 10) +:+ "." +:+ decimal (n mod 10)) +:+ " km")
  ∧ (∀ m, Number_isNaN m = false → (m <? 1000) = false →
       (metersToKm m <? 10) = false → (metersToKm m <? 1e21) = true →
       ∃ n, (10 ≤ n)%Z ∧ nearestTo 1 (metersToKm m) n
         ∧ formatDistance (Num m) = decimal n +:+ " km")
  ∧ formatDistance (Num 999) = "999 m"
  ∧ formatDistance (Num 1000) = "1.0 km"
  ∧ formatDistance (Num 9999) = "10.0 km"
  ∧ formatDistance (Num 10000) = "10 km".
Proof.
  split; [exact formatDistance_whole_meters|].
  split; [exact formatDistance_tenths|].
  split; [exact formatDistance_whole_km|].
  repeat split; vm_compute; reflexivity.
Qed.

(** The rule on a few more values, ties and near misses included. *)
Example formatDistance_samples :
  formatDistance (Num 0) = "0 m"
  ∧ formatDistance (Num 999.4) = "999 m"
  ∧ formatDistance (Num 999.5) = "1000 m"
  ∧ formatDistance (Num 1049) = "1.0 km"
  ∧ formatDistance (Num 1050) = "1.1 km"
  ∧ formatDistance (Num 9949) = "9.9 km"
  ∧ formatDistance (Num 10499) = "10 km"
  ∧ formatDistance (Num 10500) = "11 km"
  ∧ formatDistance (Num 128000) = "128 km".
Proof. repeat split; vm_compute; reflexivity. Qed.

(** C9. [formatDistance] answers the empty string for [null], for
    [undefined] and for NaN; in particular it returns on each of them. *)
Theorem formatDistance_missing :
  formatDistance Null = ""
  ∧ formatDistance Undefined = ""
  ∧ formatDistance (Num nan) = ""
  ∧ (∀ m, Number_isNaN m = true → formatDistance (Num m) = "").
Proof.
  repeat split; try reflexivity.
  intros m Hnan. unfold formatDistance. by rewrite Hnan.
Qed.
End FormatDistance.

(** The rule at a tie below 1000 m, at a tie between two tenths and
    above 10 km: the nearest integers are 1000, 10 and 11. *)
Lemma formatDistance_rule_witness :
  formatDistance (H := exampleEngine) (Num 999.5) = "1000 m"
  ∧ formatDistance (H := exampleEngine) (Num 1049) = "1.0 km"
  ∧ formatDistance (H := exampleEngine) (Num 10500) = "11 km".
Proof.
  destruct (formatDistance_rule (H := exampleEngine)) as (Hmeters & Htenths & Hkm & _).
  split; [|split].
  - destruct (Hmeters 999.5%float eq_refl eq_refl) as (n & _ & Hn & ->).
    assert (Hnear : nearestTo 1 999.5 1000) by (vm_compute; split; [discriminate|reflexivity]).
    by rewrite (nearestTo_unique _ _ _ _ Hn Hnear).
  - destruct (Htenths 1049%float eq_refl eq_refl eq_refl) as (n & _ & Hn & ->).
    assert (Hnear : nearestTo 10 (metersToKm 1049) 10)
      by (vm_compute; split; [discriminate|reflexivity]).
    by rewrite (nearestTo_unique _ _ _ _ Hn Hnear).
  - destruct (Hkm 10500%float eq_refl eq_refl eq_refl eq_refl) as (n & _ & Hn & ->).
    assert (Hnear : nearestTo 1 (metersToKm 10500) 11)
      by (vm_compute; split; [discriminate|reflexivity]).
    by rewrite (nearestTo_unique _ _ _ _ Hn Hnear).
Defined.

(** ** Distance enrichment *)

(** *** The expression of [haversineMeters] over the real numbers *)

Section GreatCircle.
Import Stdlib.Reals.Reals Stdlib.micromega.Lra.
Local Open Scope R_scope.


End GreatCircle.

Section Enrichment.
Context `{Engine}.

(** The place query resolves with the first [limit] results, in the
    provider's order, when the callback reports OK with an array, and
    rejects otherwise. *)
Lemma searchNearbyGasStations_spec google location radius limit :
  searchNearbyGasStations google location radius limit
  = match nearbySearch google {| nr_location := location; nr_radius := radius;
                                 nr_type := ["gas_station"] |} with
    | CallsBack (Some results) "OK" => Resolved (take limit results)
    | _ => Rejected
    end.
Proof.
  unfold searchNearbyGasStations.
  destruct (nearbySearch _ _) as [|[results|] st]; try done.
  case_decide as Hst; [by rewrite Hst|].
  repeat (match goal with
          | |- context [match ?x with _ => _ end] => destruct x; try done
          end).
Qed.

Lemma samePlace_withDistance p m t d : samePlace p (withDistance p m t d).
Proof. by repeat split. Qed.

Lemma computeDistances_fallback google origins places flags :
  networkMethodUnused google origins places flags →
  computeDistancesIfEnabled google origins places flags
  = enrichByHaversine (head origins) <$> places.
Proof.
  unfold networkMethodUnused, computeDistancesIfEnabled.
  intros [Hflag | [-> | [-> | (o & Ho & Hdm)]]].
  - by rewrite Hflag.
  - by rewrite andb_false_r.
  - by rewrite andb_false_r.
  - rewrite Ho, Hdm. by case (_ && _ && _).
Qed.

Lemma computeDistances_network google origins places flags resp :
  networkMethodSucceeds google origins places flags resp →
  computeDistancesIfEnabled google origins places flags
  = imap (λ idx p, enrichFromElement p (elementsOf resp !! idx)) places.
Proof.
  unfold computeDistancesIfEnabled.
  intros (Hflag & Hne & o & Ho & Hdm).
  rewrite Hflag, Ho, Hdm.
  destruct origins as [|o' os]; [done|].
  destruct places as [|p ps]; [done|].
  reflexivity.
Qed.

Lemma enrichByHaversine_fields origin p :
  let q := enrichByHaversine origin p in
  samePlace p q ∧ durationText q = durationText p
  ∧ match origin, positionOf p with
    | Some o, Some (la, ln) =>
        distanceMeters q = Some (haversineMeters (lat o) (lng o) la ln)
        ∧ distanceText q
          = Some (formatDistance (Num (haversineMeters (lat o) (lng o) la ln)))
    | _, _ => distanceMeters q = None ∧ distanceText q = None
    end.
Proof.
  unfold enrichByHaversine, positionOf.
  split; [apply samePlace_withDistance|]. split; [done|].
  destruct origin as [o|]; [|by destruct (geometry_location p) as [[]|]].
  destruct (geometry_location p) as [[la ln|l]|]; [done| |];
    by destruct (location p).
Qed.



Lemma enrichFromElement_fields p el :
  let q := enrichFromElement p el in
  samePlace p q
  ∧ distanceMeters q = elementMeters el
  ∧ durationText q = elementDuration el
  ∧ distanceText q
    = if truthy_opt (elementText el) then elementText el
      else (λ m, formatDistance (Num m)) <$> elementMeters el.
Proof. split; [apply samePlace_withDistance|]. by repeat split. Qed.

(** C4, as the code has it. When the network-aware method succeeds, the
    response is the provider's answer to a request whose origin is the
    first origin and whose destination at index [i] is the destination of
    the input place at [i]; the result has one place per input place, in
    order, and the place at index [i] is the input place at [i] with
    [distanceMeters] and [durationText] those of element [i] of the
    response row, and with [distanceText] the text of element [i] when
    that text is not empty and otherwise the [formatDistance] of the
    distance value of element [i] (absent when element [i] has no such
    value). *)
Theorem network_results_aligned google origins places flags resp :
  networkMethodSucceeds google origins places flags resp →
  let out := computeDistancesIfEnabled google origins places flags in
  (∃ request,
      getDistanceMatrix google request = CallsBack (Some resp) "OK"
      ∧ PlacesService.origins request = take 1 origins
      ∧ length (destinations request) = length places
      ∧ ∀ i p, places !! i = Some p →
          destinations request !! i = Some (destinationOf p))
  ∧ length out = length places
  ∧ ∀ i p, places !! i = Some p →
      ∃ q, out !! i = Some q
        ∧ samePlace p q
        ∧ distanceMeters q = elementMeters (elementsOf resp !! i)
        ∧ durationText q = elementDuration (elementsOf resp !! i)
        ∧ distanceText q
          = if truthy_opt (elementText (elementsOf resp !! i))
            then elementText (elementsOf resp !! i)
            else (λ m, formatDistance (Num m))
                   <$> elementMeters (elementsOf resp !! i).
Proof.
  intros Hok out. subst out.
  rewrite (computeDistances_network _ _ _ _ _ Hok).
  split; [|split; [by rewrite length_imap|]].
  - destruct Hok as (_ & _ & o & Ho & Hdm). unfold awaitDistanceMatrix in Hdm.
    eexists. split; [|split; [|split]].
    + destruct (getDistanceMatrix google _) as [|[res|] st] eqn:Hcall; [done| |done].
      case_decide as Hst; [|done]. injection Hdm as ->. subst st. exact Hcall.
    + simpl. by destruct origins as [|o' os]; [|injection Ho as ->; destruct os].
    + simpl. by rewrite length_fmap.
    + intros i p Hp. simpl. by rewrite list_lookup_fmap, Hp.
  - intros i p Hp. exists (enrichFromElement p (elementsOf resp !! i)).
    split; [by rewrite list_lookup_imap, Hp|].
    apply enrichFromElement_fields.
Qed.

(** C7, as the code has it. When the call resolves, nothing falls back:
    the result is computed element by element, whatever the other
    elements hold.  A place whose element has no distance value gets no
    [distanceMeters] (and for [distanceText] the element's text, if it
    has one), a place whose element has a distance value keeps that
    value, and each place gets the duration text of its own element; no
    haversine distance is computed for any of them. *)
Theorem partial_failure_per_element google origins places flags resp :
  networkMethodSucceeds google origins places flags resp →
  let out := computeDistancesIfEnabled google origins places flags in
  out = imap (λ idx p, enrichFromElement p (elementsOf resp !! idx)) places
  ∧ ∀ i p, places !! i = Some p →
      ∃ q, out !! i = Some q
        ∧ durationText q = elementDuration (elementsOf resp !! i)
        ∧ match elementMeters (elementsOf resp !! i) with
          | None =>
              distanceMeters q = None
              ∧ distanceText q
                = if truthy_opt (elementText (elementsOf resp !! i))
                  then elementText (elementsOf resp !! i) else None
          | Some m => distanceMeters q = Some m
          end.
Proof.
  intros Hok out. subst out.
  rewrite (computeDistances_network _ _ _ _ _ Hok).
  split; [done|].
  intros i p Hp. exists (enrichFromElement p (elementsOf resp !! i)).
  split; [by rewrite list_lookup_imap, Hp|].
  destruct (enrichFromElement_fields p (elementsOf resp !! i))
    as (_ & Hm & Hd & Ht).
  split; [done|].
  rewrite Ht, Hm. by destruct (elementMeters _).
Qed.
End Enrichment.


Lemma network_succeeds_example (found : list Place) (els : list Element)
    (p : Place) (ps : list Place) :
  networkMethodSucceeds (provider found els) [userAt] (p :: ps) flagsOn (rowOf els).
Proof. split; [reflexivity|]. split; [done|]. by exists userAt. Qed.

(** The theorem at two places and a provider that answers each
    destination with its own latitude, at the second place. *)
Lemma network_results_aligned_witness :
  let resp := rowOf (byLatitude <$> (destinationOf <$> [stationA; stationB])) in
  networkMethodSucceeds (answering byLatitude) [userAt] [stationA; stationB] flagsOn resp
  ∧ (∃ request,
        getDistanceMatrix (answering byLatitude) request = CallsBack (Some resp) "OK"
        ∧ destinations request !! 1 = Some (DestLatLng 39.84%float (-98.57)%float))
  ∧ ∃ q, computeDistancesIfEnabled (H := exampleEngine) (answering byLatitude)
           [userAt] [stationA; stationB] flagsOn !! 1 = Some q
      ∧ place_id q = Some "b"
      ∧ distanceMeters q = Some 39.84%float.
Proof.
  intros resp.
  assert (Hok : networkMethodSucceeds (answering byLatitude) [userAt]
                  [stationA; stationB] flagsOn resp).
  { split; [reflexivity|]. split; [done|]. by exists userAt. }
  split; [exact Hok|].
  destruct (network_results_aligned (H := exampleEngine) _ _ _ _ _ Hok)
    as ((request & Hcall & _ & _ & Hdest) & _ & Hidx).
  split.
  - exists request. split; [exact Hcall|]. exact (Hdest 1 stationB eq_refl).
  - destruct (Hidx 1 stationB eq_refl) as (q & Hq & Hsame & Hm & _).
    exists q. split; [exact Hq|]. split; [exact (proj1 Hsame)|exact Hm].
Defined.

(** C4, as the claim has it, fails where an element has a distance value
    and no distance text: the place then carries a text formatted here,
    which is not a text of the element. *)
Lemma network_text_not_from_element :
  let els := [elementValueOnly 1500 "3 mins"] in
  let out := computeDistancesIfEnabled (H := exampleEngine) (provider [] els)
               [userAt] [stationA] flagsOn in
  networkMethodSucceeds (provider [] els) [userAt] [stationA] flagsOn (rowOf els)
  ∧ ∃ q, out !! 0 = Some q
      ∧ distanceText q = Some "1.5 km"
      ∧ distanceText q ≠ elementText (elementsOf (rowOf els) !! 0).
Proof.
  split; [apply network_succeeds_example|].
  eexists. split; [reflexivity|]. split; [by vm_compute|].
  by vm_compute.
Qed.

(** The theorem at two places and a row whose second element failed. *)
Lemma partial_failure_per_element_witness :
  let els := [elementOk 1200 "1.2 km" "3 mins"; elementNotFound] in
  networkMethodSucceeds (provider [] els) [userAt] [stationA; stationB] flagsOn (rowOf els)
  ∧ computeDistancesIfEnabled (H := exampleEngine) (provider [] els)
      [userAt] [stationA; stationB] flagsOn
    = imap (λ idx p, enrichFromElement (H := exampleEngine) p
                       (elementsOf (rowOf els) !! idx))
           [stationA; stationB].
Proof.
  intros els.
  assert (Hok := network_succeeds_example [] els stationA [stationB]).
  split; [exact Hok|].
  exact (proj1 (partial_failure_per_element (H := exampleEngine) _ _ _ _ _ Hok)).
Defined.

(** C7, as the claim has it, fails: with one element that carries an
    error code, the result is not the haversine result for the batch.  The
    first place keeps the provider's distance and the second has none. *)
Lemma partial_failure_not_wholesale :
  let els := [elementOk 1200 "1.2 km" "3 mins"; elementNotFound] in
  let out := computeDistancesIfEnabled (H := exampleEngine) (provider [] els)
               [userAt] [stationA; stationB] flagsOn in
  networkMethodSucceeds (provider [] els) [userAt] [stationA; stationB] flagsOn (rowOf els)
  ∧ elementMeters (elementsOf (rowOf els) !! 1) = None
  ∧ out = [ withDistance stationA (Some 1200%float) (Some "1.2 km") (Some "3 mins");
            withDistance stationB None None None ]
  ∧ out ≠ enrichByHaversine (H := exampleEngine) (Some userAt) <$> [stationA; stationB].
Proof.
  split; [apply network_succeeds_example|].
  split; [reflexivity|]. split; [reflexivity|].
  intros Heq. apply (f_equal (λ l, distanceMeters <$> l !! 1)) in Heq.
  vm_compute in Heq. discriminate Heq.
Qed.

(** ** Markers *)

Section Markers.

Lemma fold_alter_lookup (f : Marker → Marker) (ks : list nat)
    (heap : gmap nat Marker) (k : nat) :
  (∀ m, f (f m) = f m) →
  fold_left (λ h k, alter f k h) ks heap !! k
  = if decide (k ∈ ks) then f <$> heap !! k else heap !! k.
Proof.
  intros Hf. revert heap. induction ks as [|x ks IH]; intros heap; simpl.
  - done.
  - rewrite IH. destruct (decide (x = k)) as [->|Hne].
    + rewrite lookup_alter_eq.
      rewrite (decide_True (P := k ∈ k :: ks)) by apply list_elem_of_here.
      case_decide; [|done]. destruct (heap !! k); simpl; by rewrite ?Hf.
    + rewrite lookup_alter_ne by done.
      destruct (decide (k ∈ ks)) as [Hin|Hout].
      * by rewrite decide_True by (by apply list_elem_of_further).
      * rewrite decide_False; [done|].
        intros [?|?]%elem_of_cons; [congruence|done].
Qed.

Lemma fold_pushMarker (l : list Place) (heap : gmap nat Marker)
    (ref : list nat) (a : nat) :
  ∃ heap',
    fold_left pushMarker l (heap, ref, a) = (heap', ref ++ seq a (length l), a + length l)
    ∧ (∀ k, k < a → heap' !! k = heap !! k)
    ∧ (∀ i p, l !! i = Some p → heap' !! (a + i) = Some (newMarker p)).
Proof.
  revert heap ref a. induction l as [|p l IH]; intros heap ref a; simpl.
  - exists heap. rewrite app_nil_r, Nat.add_0_r. by repeat split.
  - destruct (IH (<[a := newMarker p]> heap) (ref ++ [a]) (S a))
      as (heap' & Hfold & Hold & Hnew).
    exists heap'. split; [|split].
    + rewrite Hfold, <- app_assoc. simpl. f_equal. lia.
    + intros k Hk. rewrite Hold by lia. apply lookup_insert_ne. lia.
    + intros [|i] q Hq; simpl in Hq.
      * injection Hq as <-. rewrite Nat.add_0_r, Hold by lia.
        apply lookup_insert_eq.
      * replace (a + S i) with (S a + i) by lia. by apply Hnew.
Qed.

(** What painting does to the refs and to the marker objects. *)
Lemma paintMarkers_spec (l : list Place) (s : State) :
  ∃ heap,
    paintMarkers l s
    = setMarkers (seq (allocated s) (length l)) heap (allocated s + length l) s
    ∧ (∀ k, k < allocated s →
            heap !! k = if decide (k ∈ markersRef s)
                        then marker_setMap_null <$> markers s !! k
                        else markers s !! k)
    ∧ (∀ i p, l !! i = Some p → heap !! (allocated s + i) = Some (newMarker p)).
Proof.
  unfold paintMarkers.
  destruct (fold_pushMarker l
              (fold_left (λ h k, alter marker_setMap_null k h) (markersRef s) (markers s))
              [] (allocated s)) as (heap & -> & Hold & Hnew).
  exists heap. split; [done|]. split; [|done].
  intros k Hk. rewrite Hold by done. by apply fold_alter_lookup.
Qed.

Lemma paintMarkers_places (l : list Place) (s : State) :
  markerPlaces (paintMarkers l s) = Some <$> l.
Proof.
  destruct (paintMarkers_spec l s) as (heap & -> & _ & Hnew).
  unfold markerPlaces. simpl. apply list_eq. intros i.
  rewrite !list_lookup_fmap.
  destruct (l !! i) as [p|] eqn:Hp; simpl.
  - rewrite lookup_seq_lt by (by eapply lookup_lt_Some). simpl.
    by rewrite (Hnew i p Hp).
  - rewrite lookup_seq_ge; [done|]. by apply lookup_ge_None.
Qed.

(** C5, as the code has it. After painting [A] and then [B], the live
    markers stand for the places of [B], one each and in order, each on
    the map with the position and the title of its place; every marker
    that stood for a place of [A] is off the map and is none of the live
    markers, whether or not its place is in [B] too. *)
Theorem repaint_replaces_markers (A B : list Place) (s : State) :
  let s1 := paintMarkers A s in
  let s2 := paintMarkers B s1 in
  markerPlaces s2 = Some <$> B
  ∧ (∀ i p, B !! i = Some p →
       ∃ k m, markersRef s2 !! i = Some k ∧ markers s2 !! k = Some m
         ∧ listener m = p ∧ onMap m = true
         ∧ position m = markerPosition p ∧ title m = name p)
  ∧ (∀ k, k ∈ markersRef s1 →
       (k ∉ markersRef s2) ∧ ∃ m, markers s2 !! k = Some m ∧ onMap m = false).
Proof.
  intros s1 s2. split; [apply paintMarkers_places|].
  subst s2 s1.
  destruct (paintMarkers_spec A s) as (h1 & -> & _ & HA).
  destruct (paintMarkers_spec B (setMarkers (seq (allocated s) (length A)) h1
                                   (allocated s + length A) s))
    as (h2 & -> & Hold & HB).
  simpl in *. split.
  - intros i p Hp. exists (allocated s + length A + i), (newMarker p).
    split; [apply lookup_seq_lt; by eapply lookup_lt_Some|].
    split; [by apply HB|done].
  - intros k Hk. pose proof Hk as Hk'. apply elem_of_seq in Hk' as [Hlo Hhi].
    split; [rewrite elem_of_seq; lia|].
    rewrite Hold by lia. rewrite decide_True by done.
    destruct (A !! (k - allocated s)) as [p|] eqn:Hp.
    + apply HA in Hp. replace (allocated s + (k - allocated s)) with k in Hp by lia.
      rewrite Hp. by eexists.
    + apply lookup_ge_None in Hp. lia.
Qed.

(** C5, as the claim has it, fails: painting the same one place twice
    leaves it with another marker object; the first one is off the map. *)
Lemma repaint_does_not_reuse :
  let s1 := paintMarkers [stationA] init in
  let s2 := paintMarkers [stationA] s1 in
  handleOf s1 "a" = Some 0
  ∧ handleOf s2 "a" = Some 1
  ∧ handleOf s2 "a" ≠ handleOf s1 "a"
  ∧ (onMap <$> markers s2 !! 0) = Some false.
Proof. by vm_compute. Qed.
End Markers.

(** ** Fetch and enrich cycles *)

Section Cycles.
Context `{Engine}.

(** *** The effects that leave the cycles alone *)

Lemma sameListeners_alter (f : Marker → Marker) (k : nat) (h : gmap nat Marker) :
  (∀ m, listener (f m) = listener m) → sameListeners h (alter f k h).
Proof.
  intros Hf j. destruct (decide (k = j)) as [->|Hne].
  - rewrite lookup_alter_eq. destruct (h !! j); simpl; by rewrite ?Hf.
  - by rewrite lookup_alter_ne.
Qed.

Lemma sameListeners_trans (h1 h2 h3 : gmap nat Marker) :
  sameListeners h1 h2 → sameListeners h2 h3 → sameListeners h1 h3.
Proof. intros H12 H23 k. by rewrite H23, H12. Qed.

Lemma sameListeners_fold (f : Marker → Marker) (ks : list nat) (h : gmap nat Marker) :
  (∀ m, listener (f m) = listener m) →
  sameListeners h (fold_left (λ h k, alter f k h) ks h).
Proof.
  intros Hf. revert h. induction ks as [|k ks IH]; intros h; simpl; [done|].
  eapply sameListeners_trans; [by apply sameListeners_alter|apply IH].
Qed.

Lemma sameCycles_refl s : sameCycles s s.
Proof. by repeat split. Qed.

Lemma sameCycles_setAnimations heap t s :
  sameListeners (markers s) heap → sameCycles s (setAnimations heap t s).
Proof. by repeat split. Qed.

Lemma sameCycles_places s s' : sameCycles s s' → markerPlaces s' = markerPlaces s.
Proof.
  intros (_ & _ & _ & _ & Href & Hl). unfold markerPlaces. rewrite Href.
  apply list_fmap_ext. intros _ k _. apply Hl.
Qed.

Lemma highlightEffect_sameCycles s : sameCycles s (highlightEffect s).
Proof.
  unfold highlightEffect. destruct (negb (ready s)); [apply sameCycles_refl|].
  set (heap := fold_left _ _ _).
  assert (Hheap : sameListeners (markers s) heap)
    by (by apply sameListeners_fold).
  destruct (_ && _); [|by apply sameCycles_setAnimations].
  destruct (List.find _ _); [|by apply sameCycles_setAnimations].
  destruct (mapRef s); apply sameCycles_setAnimations; [|done].
  eapply sameListeners_trans; [done|by apply sameListeners_alter].
Qed.

Lemma select_sameCycles st s : sameCycles s (select st s).
Proof.
  unfold select. case_decide; [by repeat split|].
  apply (highlightEffect_sameCycles (setSelectedStation st s)).
Qed.

Lemma timerFires_sameCycles i s s' : timerFires i s = Some s' → sameCycles s s'.
Proof.
  unfold timerFires. destruct (timers s !! i); [|done].
  intros [= <-]. apply sameCycles_setAnimations. by apply sameListeners_alter.
Qed.

(** *** Settling a run *)

Lemma awaitStations_inputs net r r' :
  center r' = center r → userLocation r' = userLocation r → flags r' = flags r →
  awaitStations net r' = awaitStations net r.
Proof. unfold awaitStations. by intros -> -> ->. Qed.

Lemma settle_spec n net s s' :
  settle n net s = Some s' →
  ∃ r, runs s !! n = Some r ∧ outcome r = None
    ∧ runs s' = <[n := setOutcome (awaitStations net r) r]> (runs s)
    ∧ cleanup s' = cleanup s
    ∧ loading s' = false
    ∧ (alive r = false →
         stations s' = stations s ∧ listError s' = listError s
         ∧ markersRef s' = markersRef s ∧ markers s' = markers s)
    ∧ (alive r = true → publishedIs s' (Some (awaitStations net r)))
    ∧ (alive r = true → awaitStations net r = Rejected →
         markersRef s' = markersRef s ∧ markers s' = markers s).
Proof.
  unfold settle. destruct (runs s !! n) as [r|] eqn:Hr; [|done].
  destruct (outcome r) eqn:Ho; [done|]. intros [= <-].
  exists r. split; [done|]. split; [done|].
  destruct (awaitStations net r) as [l|] eqn:Hres; destruct (alive r) eqn:Hal;
    try (by repeat split).
  set (s1 := handleStationsUpdate l None _).
  destruct (paintMarkers_spec l s1) as (heap & Hpaint & _).
  pose proof (paintMarkers_places l s1) as Hplaces.
  rewrite Hpaint in *.
  by repeat split.
Qed.
End Cycles.

(** *** The invariant of the fetch effect *)

Section Invariant.
Context `{Engine}.

Lemma lastTrigger_snoc tr e :
  lastTrigger (tr ++ [e])
  = match e with
    | Render rdy c u fl => Some (rdy, c, u, fl)
    | _ => lastTrigger tr
    end.
Proof. unfold lastTrigger. by rewrite fold_left_app. Qed.

Lemma Inv_init : Inv [] init.
Proof. by split. Qed.

Lemma publishedIs_sameCycles s s' o :
  sameCycles s s' → publishedIs s o → publishedIs s' o.
Proof.
  intros Hsame. pose proof (sameCycles_places _ _ Hsame) as Hpl.
  destruct Hsame as (Hst & Herr & _).
  unfold publishedIs. rewrite Hst, Herr, Hpl. done.
Qed.

Lemma Inv_sameCycles tr s s' : sameCycles s s' → Inv tr s → Inv tr s'.
Proof.
  intros Hsame [Ha Hc Ho Hp Ht].
  pose proof Hsame as (_ & _ & Hruns & Hcl & _).
  split; rewrite ?Hruns, ?Hcl; try done.
  intros n r Hn Hr. eapply publishedIs_sameCycles; [done|]. by eapply Hp.
Qed.

Lemma cleaned_lookup tr s i r' :
  Inv tr s → cleaned s !! i = Some r' →
  alive r' = false
  ∧ ∃ r, runs s !! i = Some r ∧ center r' = center r
      ∧ userLocation r' = userLocation r ∧ flags r' = flags r
      ∧ outcome r' = outcome r.
Proof.
  intros HI. unfold cleaned. destruct (cleanup s) as [n|] eqn:Hcl.
  - destruct (decide (n = i)) as [->|Hne].
    + rewrite list_lookup_alter_eq. destruct (runs s !! i) as [r|]; [|done].
      intros [= <-]. split; [done|]. by exists r.
    + rewrite list_lookup_alter_ne by done. intros Hr.
      split; [|by exists r'].
      destruct (alive r') eqn:Hal; [|done].
      pose proof (inv_alive _ _ HI _ _ Hr Hal). congruence.
  - intros Hr. split; [|by exists r'].
    destruct (alive r') eqn:Hal; [|done].
    pose proof (inv_alive _ _ HI _ _ Hr Hal). congruence.
Qed.

Lemma cleaned_outcome tr s i r' o :
  Inv tr s → cleaned s !! i = Some r' → outcome r' = Some o →
  ∃ net, o = awaitStations net r'.
Proof.
  intros HI Hr' Ho.
  destruct (cleaned_lookup _ _ _ _ HI Hr') as (_ & r & Hr & Hc & Hu & Hf & Hout).
  rewrite Hout in Ho. destruct (inv_outcome _ _ HI _ _ _ Hr Ho) as [net ->].
  exists net. symmetry. by apply awaitStations_inputs.
Qed.

Lemma fetchEffect_Inv tr s rdy c u fl :
  Inv tr s → Inv (tr ++ [Render rdy c u fl]) (fetchEffect rdy c u fl s).
Proof.
  intros HI. unfold fetchEffect. simpl. fold (cleaned s).
  assert (Hstop : rdy = false ∨ c = None →
            Inv (tr ++ [Render rdy c u fl])
                (setRuns (cleaned s) None
                   (setMap rdy (mapRef s || rdy && bool_decide (is_Some c)) s))).
  { intros Hno. split; simpl; try done.
    - intros n r Hr Hal.
      destruct (cleaned_lookup _ _ _ _ HI Hr) as [Hdead _]. congruence.
    - intros n r o. by eapply cleaned_outcome.
    - rewrite lastTrigger_snoc. destruct rdy; [|done].
      destruct Hno as [?| ->]; done. }
  destruct c as [c|]; [|apply Hstop; auto].
  destruct rdy; simpl; [|apply Hstop; auto].
  rewrite (orb_true_r (mapRef s)). split; simpl.
  - intros n r Hr Hal. apply lookup_app_Some in Hr as [Hr|[Hlen Hr]].
    + destruct (cleaned_lookup _ _ _ _ HI Hr) as [Hdead _]. congruence.
    + f_equal. apply list_lookup_singleton_Some in Hr as [Hz _]. lia.
  - intros n [= <-]. split; [rewrite length_app; simpl; lia|].
    eexists. split.
    { rewrite lookup_app_r by done. by rewrite Nat.sub_diag. }
    done.
  - intros n r o Hr Ho. apply lookup_app_Some in Hr as [Hr|[Hlen Hr]].
    + by eapply cleaned_outcome.
    + apply list_lookup_singleton_Some in Hr as [_ <-]. done.
  - intros n r [= <-] Hr. rewrite lookup_app_r in Hr by done.
    rewrite Nat.sub_diag in Hr. by injection Hr as <-.
  - rewrite lastTrigger_snoc.
    exists (length (cleaned s)),
           {| alive := true; center := c; userLocation := u; flags := fl;
              outcome := None |}.
    split; [done|]. split; [|done].
    rewrite lookup_app_r by done. by rewrite Nat.sub_diag.
Qed.

Lemma settle_Inv tr s n net s' :
  Inv tr s → settle n net s = Some s' → Inv (tr ++ [Settle n net]) s'.
Proof.
  intros HI Hs.
  destruct (settle_spec _ _ _ _ Hs)
    as (r & Hr & Hpending & Hruns & Hcl & _ & Hstale & Hcur & _).
  assert (Hlook : ∀ i r', runs s' !! i = Some r' →
            ∃ r0, runs s !! i = Some r0 ∧ alive r' = alive r0
              ∧ center r' = center r0 ∧ userLocation r' = userLocation r0
              ∧ flags r' = flags r0
              ∧ (i ≠ n → r' = r0)
              ∧ (i = n → r0 = r ∧ outcome r' = Some (awaitStations net r))).
  { intros i r'. rewrite Hruns. destruct (decide (n = i)) as [<-|Hne].
    - rewrite list_lookup_insert_eq by (by eapply lookup_lt_Some).
      intros [= <-]. exists r. by repeat split.
    - rewrite list_lookup_insert_ne by done. intros Hi.
      exists r'. repeat split; try done; congruence. }
  split.
  - intros i r' Hi Hal. rewrite Hcl.
    destruct (Hlook _ _ Hi) as (r0 & Hr0 & Hal0 & _).
    eapply inv_alive; [done|done|congruence].
  - intros i. rewrite Hcl. intros Hi.
    destruct (inv_current _ _ HI _ Hi) as (Hlen & r0 & Hr0 & Hal0).
    split; [by rewrite Hruns, length_insert|].
    destruct (decide (n = i)) as [<-|Hne].
    + exists (setOutcome (awaitStations net r) r).
      rewrite Hruns, list_lookup_insert_eq by (by eapply lookup_lt_Some).
      split; [done|]. simpl. congruence.
    + exists r0. by rewrite Hruns, list_lookup_insert_ne.
  - intros i r' o Hi Ho.
    destruct (Hlook _ _ Hi) as (r0 & Hr0 & _ & Hc & Hu & Hf & Hne & Heq).
    destruct (decide (i = n)) as [->|Hin].
    + destruct (Heq eq_refl) as [-> Hout]. exists net.
      rewrite Hout in Ho. injection Ho as <-.
      symmetry. by apply awaitStations_inputs.
    + rewrite (Hne Hin) in *. by eapply inv_outcome.
  - rewrite Hcl. intros i r' Hi Hri.
    destruct (Hlook _ _ Hri) as (r0 & Hr0 & _ & _ & _ & _ & Hne & Heq).
    destruct (inv_current _ _ HI _ Hi) as (_ & rc & Hrc & Halc).
    destruct (decide (i = n)) as [->|Hin].
    + destruct (Heq eq_refl) as [-> ->]. apply Hcur. congruence.
    + rewrite (Hne Hin).
      assert (Hdead : alive r = false).
      { destruct (alive r) eqn:Hal; [|done].
        pose proof (inv_alive _ _ HI _ _ Hr Hal). congruence. }
      destruct (Hstale Hdead) as (Hst & Herr & Href & Hm).
      pose proof (inv_published _ _ HI _ _ Hi Hr0) as Hp.
      unfold publishedIs, markerPlaces in *. by rewrite Hst, Herr, Href, Hm.
  - rewrite lastTrigger_snoc, Hcl.
    pose proof (inv_trigger _ _ HI) as Ht.
    destruct (lastTrigger tr) as [[[[[] [c|]] u] fl]|]; try done.
    destruct Ht as (i & r0 & Hi & Hr0 & Hc & Hu & Hf).
    destruct (decide (i = n)) as [->|Hin].
    + exists n, (setOutcome (awaitStations net r) r).
      rewrite Hruns, list_lookup_insert_eq by (by eapply lookup_lt_Some).
      assert (r0 = r) as -> by congruence. by repeat split.
    + exists i, r0. by rewrite Hruns, list_lookup_insert_ne.
Qed.

Lemma step_Inv tr s e s' : Inv tr s → step s e = Some s' → Inv (tr ++ [e]) s'.
Proof.
  intros HI. destruct e as [rdy c u fl|n net|st|i]; simpl.
  - intros [= <-].
    pose proof (fetchEffect_Inv _ _ rdy c u fl HI) as HI'.
    case_bool_decide; [|done].
    eapply Inv_sameCycles; [apply highlightEffect_sameCycles|done].
  - by apply settle_Inv.
  - intros [= <-]. eapply Inv_sameCycles; [apply select_sameCycles|].
    destruct HI. split; try done. by rewrite lastTrigger_snoc.
  - intros Ht. eapply Inv_sameCycles; [by eapply timerFires_sameCycles|].
    destruct HI. split; try done. by rewrite lastTrigger_snoc.
Qed.

Lemma run_Inv tr : ∀ tr0 s0 s, Inv tr0 s0 → run s0 tr = Some s → Inv (tr0 ++ tr) s.
Proof.
  induction tr as [|e tr IH]; intros tr0 s0 s HI; simpl.
  - intros [= <-]. by rewrite app_nil_r.
  - destruct (step s0 e) as [s1|] eqn:Hstep; [|done]. intros Hrun.
    rewrite (cons_middle e tr0 tr), app_assoc.
    eapply IH; [|done]. by eapply step_Inv.
Qed.
End Invariant.

(** *** What a cycle publishes *)

Section Publication.
Context `{Engine}.

(** C1. In every state the component can reach: the results of a run
    that is not the current one (another triggering event came after it,
    or the last one started none) leave the published list, the error and
    the markers as they are; the results of the current run are published
    when they arrive; and when the last triggering event started a run,
    that run is the current one, it is the last one started, and once it
    has settled the published list, error and markers are what that run
    produced from its own centre, user location and flags, whatever runs
    settled before or after it. *)
Theorem stale_results_discarded (tr : list Event) (s : State) :
  run init tr = Some s →
  (∀ n net s', step s (Settle n net) = Some s' → cleanup s ≠ Some n →
     stations s' = stations s ∧ listError s' = listError s
     ∧ markersRef s' = markersRef s ∧ markers s' = markers s)
  ∧ (∀ n net s', step s (Settle n net) = Some s' → cleanup s = Some n →
       ∃ r, runs s !! n = Some r ∧ publishedIs s' (Some (awaitStations net r)))
  ∧ (∀ c u fl, lastTrigger tr = Some (true, Some c, u, fl) →
       ∃ n r, cleanup s = Some n ∧ S n = length (runs s) ∧ runs s !! n = Some r
         ∧ center r = c ∧ userLocation r = u ∧ flags r = fl
         ∧ match outcome r with
           | Some o => (∃ net, o = awaitStations net r) ∧ publishedIs s (Some o)
           | None => True
           end).
Proof.
  intros Hrun. pose proof (run_Inv tr [] init s Inv_init Hrun) as HI.
  simpl in HI. split; [|split].
  - intros n net s' Hstep Hstale. simpl in Hstep.
    destruct (settle_spec _ _ _ _ Hstep) as (r & Hr & _ & _ & _ & _ & Hdead & _).
    apply Hdead. destruct (alive r) eqn:Hal; [|done].
    by pose proof (inv_alive _ _ HI _ _ Hr Hal).
  - intros n net s' Hstep Hcur. simpl in Hstep.
    destruct (settle_spec _ _ _ _ Hstep) as (r & Hr & _ & _ & _ & _ & _ & Hpub & _).
    exists r. split; [done|]. apply Hpub.
    destruct (inv_current _ _ HI _ Hcur) as (_ & r' & Hr' & Hal). congruence.
  - intros c u fl Hlast. pose proof (inv_trigger _ _ HI) as Ht.
    rewrite Hlast in Ht. destruct Ht as (n & r & Hcl & Hr & Hc & Hu & Hf).
    exists n, r. destruct (inv_current _ _ HI _ Hcl) as (Hlen & _).
    repeat (split; [done|]).
    pose proof (inv_published _ _ HI _ _ Hcl Hr) as Hpub.
    destruct (outcome r) as [o|] eqn:Ho; [|done].
    split; [by eapply inv_outcome|done].
Qed.

(** C2, as the code has it. When the place query of a run that is still
    alive fails, the run reports the user-facing message and publishes the
    empty list in place of the list shown before; the markers on the map
    are left as they are and the loading flag is cleared. *)
Theorem failed_cycle_empties_list (n : nat) (net : Google) (s : State) (r : Run) :
  runs s !! n = Some r → outcome r = None → alive r = true →
  searchNearbyGasStations net (center r) 5000 maxMarkers = Rejected →
  ∃ s', settle n net s = Some s'
    ∧ listError s' = failureMessage
    ∧ stations s' = []
    ∧ markersRef s' = markersRef s ∧ markers s' = markers s
    ∧ loading s' = false.
Proof.
  intros Hr Hpending Hal Hfail.
  unfold settle, awaitStations. rewrite Hr, Hpending, Hfail, Hal.
  eexists. split; [reflexivity|]. by repeat split.
Qed.
End Publication.

(** The theorem at the overlapping runs: the first run settles last and
    changes nothing; what is published is the result of the second. *)
Lemma stale_results_discarded_witness :
  ∃ s, run (H := exampleEngine) init overlapping = Some s
    ∧ stations s = [stationB]
    ∧ ∃ n r, cleanup s = Some n ∧ S n = length (runs s) ∧ runs s !! n = Some r
        ∧ center r = centerTwo ∧ userLocation r = None ∧ flags r = flagsOff
        ∧ match outcome r with
          | Some o => (∃ net, o = awaitStations (H := exampleEngine) net r)
                      ∧ publishedIs s (Some o)
          | None => True
          end.
Proof.
  eexists. split; [vm_compute; reflexivity|]. split; [reflexivity|].
  refine (proj2 (proj2 (stale_results_discarded (H := exampleEngine) overlapping _ _))
            centerTwo None flagsOff _);
    [vm_compute; reflexivity|reflexivity].
Defined.

(** The theorem at the second run of [thenUnreachable]. *)
Lemma failed_cycle_empties_list_witness :
  ∃ s r, run (H := exampleEngine) init thenUnreachable = Some s
    ∧ runs s !! 1 = Some r
    ∧ ∃ s', settle (H := exampleEngine) 1 unreachable s = Some s'
        ∧ listError s' = failureMessage
        ∧ stations s' = []
        ∧ markersRef s' = markersRef s ∧ markers s' = markers s
        ∧ loading s' = false.
Proof.
  eexists. eexists. split; [vm_compute; reflexivity|]. split; [reflexivity|].
  eapply (failed_cycle_empties_list (H := exampleEngine) 1 unreachable);
    reflexivity.
Defined.

(** C2, as the claim has it, fails: the list of two stations that the
    first run published is replaced by the empty list when the second run's
    place query fails. *)
Lemma failed_cycle_loses_previous_list :
  ∃ s s', run (H := exampleEngine) init thenUnreachable = Some s
    ∧ stations s = [stationA; stationB]
    ∧ step (H := exampleEngine) s (Settle 1 unreachable) = Some s'
    ∧ listError s' = failureMessage
    ∧ stations s' = []
    ∧ stations s' ≠ stations s.
Proof.
  eexists. eexists. split; [vm_compute; reflexivity|].
  split; [reflexivity|]. split; [vm_compute; reflexivity|].
  by repeat split.
Qed.

(** ** Highlighting the selected marker *)

Lemma marker_setAnimation_idem a (m : Marker) :
  marker_setAnimation a (marker_setAnimation a m) = marker_setAnimation a m.
Proof. done. Qed.

Lemma hasTitle_cleared (s : State) (k : nat) :
  hasTitle (fold_left (λ h k, alter (marker_setAnimation None) k h)
                      (markersRef s) (markers s)) k
  = hasTitle (markers s) k.
Proof.
  unfold hasTitle.
  rewrite fold_alter_lookup by apply marker_setAnimation_idem.
  case_decide; [|done]. by destruct (markers s !! k).
Qed.

Lemma find_ext {A} (f g : A → bool) (l : list A) :
  (∀ x, f x = g x) → List.find f l = List.find g l.
Proof. intros Hfg. induction l as [|x l IH]; simpl; [done|]. by rewrite Hfg, IH. Qed.

(** What the highlight effect does with a selected id: the marker that
    bounces is the first live marker that has a title, and every other live
    marker has its animation cleared.  The selected id takes no part in the
    choice. *)
Lemma highlightEffect_bounces_first_titled (s : State) (k : nat) :
  ready s = true → mapRef s = true →
  truthy_opt (selectedStation s ≫= place_id) = true →
  List.find (hasTitle (markers s)) (markersRef s) = Some k →
  (animation <$> markers (highlightEffect s) !! k) = Some (Some BOUNCE)
  ∧ ∀ k' m, k' ≠ k → k' ∈ markersRef s → markers s !! k' = Some m →
      markers (highlightEffect s) !! k' = Some (marker_setAnimation None m).
Proof.
  intros Hready Hmap Hsel Hfind. unfold highlightEffect.
  rewrite Hready, Hsel, Hmap. simpl.
  rewrite (find_ext _ _ _ (hasTitle_cleared s)), Hfind.
  assert (Hin : k ∈ markersRef s).
  { apply List.find_some in Hfind as [Hin _]. by apply list_elem_of_In. }
  rewrite bool_decide_true by (destruct (markersRef s); [by apply elem_of_nil in Hin|simpl; lia]).
  simpl. split.
  - rewrite lookup_alter_eq.
    rewrite fold_alter_lookup by apply marker_setAnimation_idem.
    rewrite decide_True by done.
    apply List.find_some in Hfind as [_ Ht]. unfold hasTitle in Ht.
    by destruct (markers s !! k).
  - intros k' m Hne Hin' Hm. rewrite lookup_alter_ne by done.
    rewrite fold_alter_lookup by apply marker_setAnimation_idem.
    by rewrite decide_True, Hm by done.
Qed.

(** Without a selected id, every live marker has its animation cleared
    and none bounces. *)
Lemma highlightEffect_none_selected (s : State) (k : nat) (m : Marker) :
  ready s = true →
  truthy_opt (selectedStation s ≫= place_id) = false →
  k ∈ markersRef s → markers s !! k = Some m →
  markers (highlightEffect s) !! k = Some (marker_setAnimation None m).
Proof.
  intros Hready Hsel Hin Hm. unfold highlightEffect.
  rewrite Hready, Hsel. simpl.
  rewrite fold_alter_lookup by apply marker_setAnimation_idem.
  by rewrite decide_True, Hm by done.
Qed.

(** C6 at a failing input. With markers for two stations and the second
    station selected, the marker that bounces is the one of the first
    station: the predicate of [find] tests that a marker has a title and
    that some id is selected, and never compares the two. *)
Lemma highlight_ignores_selected_id :
  ∃ s, run (H := exampleEngine) init selectSecond = Some s
    ∧ (selectedStation s ≫= place_id) = Some "b"
    ∧ markerPlaces s = [Some stationA; Some stationB]
    ∧ handleOf s "a" = Some 0 ∧ handleOf s "b" = Some 1
    ∧ (animation <$> markers s !! 0) = Some (Some BOUNCE)
    ∧ (animation <$> markers s !! 1) = Some None
    ∧ timers s = [0].
Proof. eexists. split; [vm_compute; reflexivity|]. by vm_compute. Qed.

(** ** Feature flags *)

Section Flags.

Lemma parsePair_entry (flags : gmap string bool) (p : string) :
  parsePair flags p
  = match entryOf p with
    | Some (k, b) => assign k b flags
    | None => flags
    end.
Proof.
  unfold parsePair, entryOf.
  destruct (trim <$> split _ p) as [|k rest]; [done|]. by case_decide.
Qed.

Lemma fold_parsePair (ps : list string) (flags : gmap string bool) :
  fold_left parsePair ps flags
  = fold_left (λ m e, assign e.1 e.2 m) (omap entryOf ps) flags.
Proof.
  revert flags. induction ps as [|p ps IH]; intros flags; simpl; [done|].
  rewrite parsePair_entry. destruct (entryOf p) as [[k b]|]; simpl; by rewrite IH.
Qed.

Lemma assign_lookup (k k' : string) (b : bool) (m : gmap string bool) :
  assign k b m !! k'
  = if decide (k = k' ∧ k ≠ "__proto__") then Some b else m !! k'.
Proof.
  unfold assign. case_decide as Hp.
  - rewrite decide_False; [done|]. intros [_ ?]. done.
  - destruct (decide (k = k')) as [->|Hne].
    + rewrite decide_True by done. apply lookup_insert_eq.
    + rewrite decide_False by (by intros [? _]). by apply lookup_insert_ne.
Qed.

Lemma fold_assign_lookup (es : list (string * bool)) (m : gmap string bool) (k : string) :
  k ≠ "__proto__" →
  fold_left (λ m e, assign e.1 e.2 m) es m !! k
  = match last (filter (λ e, e.1 = k) es) with
    | Some e => Some e.2
    | None => m !! k
    end.
Proof.
  intros Hk. induction es as [|e es IH] using rev_ind; [done|].
  rewrite fold_left_app, filter_app. simpl. rewrite assign_lookup.
  destruct (decide (e.1 = k)) as [He|He].
  - rewrite decide_True by (split; congruence).
    rewrite filter_cons_True, filter_nil by done. by rewrite last_snoc.
  - rewrite decide_False by (by intros [? _]).
    rewrite filter_cons_False, filter_nil, app_nil_r by done. apply IH.
Qed.

Lemma fold_assign_proto (es : list (string * bool)) (m : gmap string bool) :
  fold_left (λ m e, assign e.1 e.2 m) es m !! "__proto__" = m !! "__proto__".
Proof.
  induction es as [|e es IH] using rev_ind; [done|].
  rewrite fold_left_app. simpl. rewrite assign_lookup.
  rewrite decide_False; [done|]. intros [-> ?]. done.
Qed.

(** X1. The flags of a string, key by key: a key other than [__proto__]
    holds what the last pair that names it stores, and is missing when no
    pair names it. *)
Lemma parseFeatureFlags_lookup (envString k : string) :
  k ≠ "__proto__" →
  parseFeatureFlags (VString envString) !! k
  = snd <$> last (filter (λ e, e.1 = k) (entriesOf envString)).
Proof.
  intros Hk. unfold parseFeatureFlags, entriesOf.
  destruct (truthy envString) eqn:Hs.
  - rewrite fold_parsePair, fold_assign_lookup by done.
    by destruct (last _).
  - destruct envString; [|done]. done.
Qed.

(** What a pair stores: [true] without a value or with an empty one,
    and with a value [true] exactly for the three spellings. *)
Lemma flagValue_spec :
  flagValue None = true
  ∧ flagValue (Some "") = true
  ∧ ∀ v, v ≠ "" →
      (flagValue (Some v) = true
       ↔ toLowerCase v = "true" ∨ toLowerCase v = "1" ∨ toLowerCase v = "yes").
Proof.
  split; [done|]. split; [done|]. intros v Hv. unfold flagValue.
  rewrite decide_False by done.
  rewrite !orb_true_iff, !bool_decide_eq_true. tauto.
Qed.

Lemma parseFeatureFlags_not_a_string (v : Value) :
  (∀ s, v = VString s → s = "") → parseFeatureFlags v = ∅.
Proof.
  destruct v as [| | | |s]; try done. intros Hs.
  by rewrite (Hs s eq_refl).
Qed.

(** C10 at a failing input. A pair whose key is [__proto__] stores
    nothing: the assignment reaches the setter that [Object.prototype]
    provides, which ignores a boolean.  The key is listed, with and
    without a value, and the mapping returned holds no entry for it, while
    the other keys of the same string are stored. *)
Lemma parseFeatureFlags_drops_proto :
  parseFeatureFlags (VString "__proto__") = ∅
  ∧ parseFeatureFlags (VString "__proto__=true") !! "__proto__" = None
  ∧ parseFeatureFlags (VString "enableDistanceMatrix=true,__proto__=yes")
    = {[ "enableDistanceMatrix" := true ]}
  ∧ ∀ envString, parseFeatureFlags (VString envString) !! "__proto__" = None.
Proof.
  split; [by vm_compute|]. split; [by vm_compute|]. split; [by vm_compute|].
  intros envString. unfold parseFeatureFlags.
  destruct (truthy envString); [|done].
  by rewrite fold_parsePair, fold_assign_proto.
Qed.
(** The lookup at a key that two pairs name. *)
Lemma parseFeatureFlags_lookup_witness :
  "a" ≠ "__proto__"
  ∧ parseFeatureFlags (VString " a = YES ; b , a=no") !! "a" = Some false.
Proof.
  assert (Hne : "a" ≠ "__proto__") by done.
  split; [exact Hne|].
  exact (eq_trans (parseFeatureFlags_lookup " a = YES ; b , a=no" "a" Hne) eq_refl).
Defined.
End Flags.

(** ** The scenario of the specification *)

(** The three places come out in the order returned, each with a haversine
    distance text and no duration; after the second result set the live
    markers are those of its two places, and no other marker is on the
    map. *)
Example scenario_three_places :
  ∃ s1 s2,
    run (H := exampleEngine) init (take 2 scenario) = Some s1
    ∧ place_id <$> stations s1 = [Some "a"; Some "b"; Some "c"]
    ∧ distanceText <$> stations s1 = [Some "194 m"; Some "1.5 km"; Some "1.3 km"]
    ∧ durationText <$> stations s1 = [None; None; None]
    ∧ run (H := exampleEngine) init scenario = Some s2
    ∧ (λ p, p ≫= place_id) <$> markerPlaces s2 = [Some "a"; Some "b"]
    ∧ length (filter (λ km, onMap km.2 = true) (map_to_list (markers s2))) = 2.
Proof.
  eexists. eexists. split; [vm_compute; reflexivity|].
  split; [by vm_compute|]. split; [by vm_compute|]. split; [by vm_compute|].
  split; [vm_compute; reflexivity|]. by vm_compute.
Qed.

(** * Further properties of the code *)

(** ** The enrichment service as a whole *)

Section EnrichmentWhole.
Context `{Engine}.

(** Whatever branch is taken, the result is the input list mapped place by
    place, each place keeping its provider fields. *)
Lemma computeDistances_shape google origins places flags :
  ∃ f : nat → Place → Place,
    (∀ i p, samePlace p (f i p))
    ∧ computeDistancesIfEnabled google origins places flags = imap f places.
Proof.
  assert (Hfb : ∃ f : nat → Place → Place,
            (∀ i p, samePlace p (f i p))
            ∧ enrichByHaversine (head origins) <$> places = imap f places).
  { exists (λ _, enrichByHaversine (head origins)). split.
    - intros _ p. apply enrichByHaversine_fields.
    - apply list_eq. intros i. by rewrite list_lookup_fmap, list_lookup_imap. }
  unfold computeDistancesIfEnabled.
  destruct (_ && _ && _); [|done].
  destruct (head origins) as [o|]; [|done].
  destruct (awaitDistanceMatrix google o places) as [resp|]; [|done].
  eexists. split; [|reflexivity].
  intros i p. apply enrichFromElement_fields.
Qed.

(** X2. Enrichment never drops, adds or reorders a place and never
    touches a provider field: for every provider, origin list, place list
    and flags, the result has the length of the input and its place at
    each index is the input place at that index up to the three distance
    fields. *)
Theorem enrichment_keeps_places google origins places flags :
  let out := computeDistancesIfEnabled google origins places flags in
  length out = length places
  ∧ ∀ i p, places !! i = Some p → ∃ q, out !! i = Some q ∧ samePlace p q.
Proof.
  intros out. subst out.
  destruct (computeDistances_shape google origins places flags) as (f & Hf & ->).
  split; [by rewrite length_imap|].
  intros i p Hp. exists (f i p). split; [|done].
  by rewrite list_lookup_imap, Hp.
Qed.

Lemma destinationOf_samePlace p q :
  samePlace p q → PlacesService.destinationOf q = PlacesService.destinationOf p.
Proof.
  intros (_ & Hn & Hv & _ & Hg & Hl). unfold PlacesService.destinationOf.
  by rewrite Hn, Hv, Hg, Hl.
Qed.

Lemma awaitDistanceMatrix_destinations google o ps qs :
  PlacesService.destinationOf <$> qs = PlacesService.destinationOf <$> ps →
  awaitDistanceMatrix google o qs = awaitDistanceMatrix google o ps.
Proof. unfold awaitDistanceMatrix. by intros ->. Qed.

Lemma enrichByHaversine_twice origin p :
  enrichByHaversine origin (enrichByHaversine origin p) = enrichByHaversine origin p.
Proof. reflexivity. Qed.

Lemma enrichFromElement_twice p el :
  enrichFromElement (enrichFromElement p el) el = enrichFromElement p el.
Proof. reflexivity. Qed.

Lemma network_method_dichotomy google origins places flags :
  networkMethodUnused google origins places flags
  ∨ ∃ resp, networkMethodSucceeds google origins places flags resp.
Proof.
  unfold networkMethodUnused, networkMethodSucceeds.
  destruct (default false (flags !! "enableDistanceMatrix")); [|by left; left].
  destruct origins as [|o os]; [by left; right; left|].
  destruct places as [|p ps]; [by left; right; right; left|].
  destruct (awaitDistanceMatrix google o (p :: ps)) as [resp|] eqn:Hdm.
  - right. exists resp. split; [done|]. split; [done|]. by exists o.
  - left. right. right. right. by exists o.
Qed.

(** X3. Enriching an enriched list again, with the same provider, origins
    and flags, changes nothing: the provider is asked about the same
    destinations and every place gets the same three fields. *)
Theorem enrichment_idempotent google origins places flags :
  computeDistancesIfEnabled google origins
    (computeDistancesIfEnabled google origins places flags) flags
  = computeDistancesIfEnabled google origins places flags.
Proof.
  destruct (computeDistances_shape google origins places flags) as (f & Hf & Hout).
  set (out := computeDistancesIfEnabled google origins places flags) in *.
  assert (Hdest : PlacesService.destinationOf <$> out
                  = PlacesService.destinationOf <$> places).
  { rewrite Hout. apply list_eq. intros i.
    rewrite !list_lookup_fmap, list_lookup_imap.
    destruct (places !! i) as [p|]; simpl; [|done].
    by rewrite (destinationOf_samePlace p (f i p)). }
  assert (Hlen : length out = length places) by (by rewrite Hout, length_imap).
  destruct (network_method_dichotomy google origins places flags)
    as [Hun|[resp Hok]].
  - assert (Hun' : networkMethodUnused google origins out flags).
    { destruct Hun as [Hflag|[Ho|[Hp|(o & Ho & Hdm)]]].
      - by left.
      - by right; left.
      - right; right; left. apply nil_length_inv. by rewrite Hlen, Hp.
      - right; right; right. exists o. split; [done|].
        by rewrite (awaitDistanceMatrix_destinations google o places). }
    rewrite (computeDistances_fallback _ _ _ _ Hun').
    subst out. rewrite (computeDistances_fallback _ _ _ _ Hun).
    rewrite <- list_fmap_compose. by apply list_fmap_ext.
  - assert (Hok' : networkMethodSucceeds google origins out flags resp).
    { destruct Hok as (Hflag & Hne & o & Ho & Hdm).
      split; [done|]. split.
      - intros Hnil. apply Hne. apply nil_length_inv. by rewrite <- Hlen, Hnil.
      - exists o. split; [done|].
        by rewrite (awaitDistanceMatrix_destinations google o places). }
    rewrite (computeDistances_network _ _ _ _ _ Hok').
    subst out. rewrite (computeDistances_network _ _ _ _ _ Hok).
    apply list_eq. intros i. rewrite !list_lookup_imap.
    by destruct (places !! i).
Qed.

(** X4. A response that resolves but has no element for a place (no rows,
    an empty row, a row shorter than the request) does not fall back
    either: that place comes out with all three distance fields absent,
    whatever its position and the origin. *)
Theorem missing_element_leaves_place_bare google origins places flags resp :
  networkMethodSucceeds google origins places flags resp →
  ∀ i p, places !! i = Some p → elementsOf resp !! i = None →
    computeDistancesIfEnabled google origins places flags !! i
    = Some (withDistance p None None None).
Proof.
  intros Hok i p Hp Hel.
  rewrite (computeDistances_network _ _ _ _ _ Hok).
  by rewrite list_lookup_imap, Hp, Hel.
Qed.
End EnrichmentWhole.

(** The theorem at a response without rows, for a place with a position. *)
Lemma missing_element_leaves_place_bare_witness :
  networkMethodSucceeds
    {| nearbySearch := λ _, Throws;
       getDistanceMatrix := λ _, CallsBack (Some {| rows := None |}) "OK" |}
    [userAt] [stationA] flagsOn {| rows := None |}
  ∧ computeDistancesIfEnabled (H := exampleEngine)
      {| nearbySearch := λ _, Throws;
         getDistanceMatrix := λ _, CallsBack (Some {| rows := None |}) "OK" |}
      [userAt] [stationA] flagsOn !! 0
    = Some (withDistance stationA None None None).
Proof.
  assert (Hok : networkMethodSucceeds
            {| nearbySearch := λ _, Throws;
               getDistanceMatrix := λ _, CallsBack (Some {| rows := None |}) "OK" |}
            [userAt] [stationA] flagsOn {| rows := None |}).
  { split; [reflexivity|]. split; [done|]. by exists userAt. }
  split; [exact Hok|].
  exact (missing_element_leaves_place_bare (H := exampleEngine) _ _ _ _ _ Hok
           0 stationA eq_refl eq_refl).
Defined.

(** ** Feature flags: keys and concatenation *)

Section FlagsWhole.

Lemma AllChars_impl (P Q : ascii → Prop) s :
  (∀ c, P c → Q c) → AllChars P s → AllChars Q s.
Proof. intros HPQ. induction s as [|c r IH]; simpl; [done|]. intros [? ?]. auto. Qed.

Lemma AllChars_trimStart P s : AllChars P s → AllChars P (trimStart s).
Proof.
  induction s as [|c r IH]; simpl; [done|]. intros [Hc Hr].
  destruct (is_white_space c); [auto|done].
Qed.

Lemma AllChars_trimEnd P s : AllChars P s → AllChars P (trimEnd s).
Proof.
  induction s as [|c r IH]; simpl; [done|]. intros [Hc Hr].
  specialize (IH Hr). destruct (trimEnd r) as [|c' r'].
  - by destruct (is_white_space c).
  - done.
Qed.

Lemma AllChars_trim P s : AllChars P s → AllChars P (trim s).
Proof. intros Hs. by apply AllChars_trimEnd, AllChars_trimStart. Qed.

Lemma split_nonempty sep s : ∃ piece pieces, split sep s = piece :: pieces.
Proof.
  induction s as [|c r (piece & pieces & IH)]; simpl; [by eexists _, _|].
  destruct (sep c); [by eexists _, _|]. rewrite IH. by eexists _, _.
Qed.

(** The pieces of a split hold no separator, and only code units of the
    string that was split. *)
Lemma split_pieces P sep s piece :
  AllChars P s → piece ∈ split sep s →
  AllChars P piece ∧ AllChars (λ c, sep c = false) piece.
Proof.
  revert piece. induction s as [|c r IH]; simpl; intros piece Hs Hin.
  - apply list_elem_of_singleton in Hin as ->. done.
  - destruct Hs as [Hc Hr]. destruct (sep c) eqn:Hsep.
    + apply elem_of_cons in Hin as [->|Hin]; [done|]. by apply IH.
    + destruct (split_nonempty sep r) as (h & t & Hsplit). rewrite Hsplit in *.
      apply elem_of_cons in Hin as [->|Hin].
      * destruct (IH h Hr) as [? ?]; [apply list_elem_of_here|]. done.
      * apply IH; [done|]. by apply list_elem_of_further.
Qed.

Lemma trimStart_head s :
  trimStart s = EmptyString
  ∨ ∃ c r, trimStart s = String c r ∧ is_white_space c = false.
Proof.
  induction s as [|c r IH]; simpl; [by left|].
  destruct (is_white_space c) eqn:Hc; [done|]. right. by eexists _, _.
Qed.

Lemma trimEnd_head c r :
  is_white_space c = false → ∃ r', trimEnd (String c r) = String c r'.
Proof.
  intros Hc. simpl. destruct (trimEnd r); rewrite ?Hc; by eexists.
Qed.

Lemma trimEnd_twice s : trimEnd (trimEnd s) = trimEnd s.
Proof.
  induction s as [|c r IH]; simpl; [done|].
  destruct (trimEnd r) as [|c' r'] eqn:Hr.
  - destruct (is_white_space c) eqn:Hc; simpl; [done|]. by rewrite Hc.
  - simpl in *. by rewrite IH.
Qed.

(** Trimming what is trimmed changes nothing. *)
Lemma trim_twice s : trim (trim s) = trim s.
Proof.
  unfold trim. destruct (trimStart_head s) as [->|(c & r & -> & Hc)]; [done|].
  destruct (trimEnd_head c r Hc) as [r' Hr']. rewrite Hr'.
  simpl trimStart. rewrite Hc. by rewrite <- Hr', trimEnd_twice.
Qed.

Lemma entryOf_key p k b :
  entryOf p = Some (k, b) →
  k ≠ "" ∧ ∃ piece, piece ∈ split (λ c, bool_decide (c = "="%char)) p ∧ k = trim piece.
Proof.
  unfold entryOf.
  destruct (split_nonempty (λ c, bool_decide (c = "="%char)) p) as (h & t & Hsplit).
  rewrite Hsplit. simpl. case_decide as Hk; [done|]. intros [= <- _].
  split; [done|]. exists h. split; [apply list_elem_of_here|done].
Qed.

Lemma pairsOf_piece p envString :
  p ∈ pairsOf envString →
  ∃ piece, piece ∈ split (λ c, bool_decide (c = ";"%char) || bool_decide (c = ","%char))
                         envString
    ∧ p = trim piece.
Proof.
  unfold pairsOf. intros [_ Hin]%list_elem_of_filter.
  apply list_elem_of_fmap in Hin as (piece & -> & Hin). by exists piece.
Qed.

Lemma fold_assign_key (es : list (string * bool)) (k : string) :
  is_Some (fold_left (λ m e, assign e.1 e.2 m) es ∅ !! k) →
  k ≠ "__proto__" ∧ ∃ b, (k, b) ∈ es.
Proof.
  intros Hk. assert (Hne : k ≠ "__proto__").
  { intros ->. rewrite fold_assign_proto, lookup_empty in Hk. by destruct Hk. }
  split; [done|]. rewrite fold_assign_lookup in Hk by done.
  destruct (last _) as [[k' b]|] eqn:Hlast.
  - apply last_Some_elem_of, list_elem_of_filter in Hlast as [Hkey Hin].
    simpl in Hkey. subst k'. by exists b.
  - rewrite lookup_empty in Hk. by destruct Hk.
Qed.

(** X5. Every key of the mapping that [parseFeatureFlags] returns is
    non-empty, has no white space at either end (trimming it changes
    nothing), holds none of the separators [=], [;] and [,], and is not
    [__proto__]. *)
Theorem parseFeatureFlags_keys (envString k : string) :
  is_Some (parseFeatureFlags (VString envString) !! k) →
  k ≠ "" ∧ trim k = k ∧ AllChars plainUnit k ∧ k ≠ "__proto__".
Proof.
  unfold parseFeatureFlags. destruct (truthy envString);
    [|rewrite lookup_empty; by intros []].
  rewrite fold_parsePair. intros (Hproto & b & Hin)%fold_assign_key.
  apply list_elem_of_omap in Hin as (p & Hp & Hentry).
  apply entryOf_key in Hentry as (Hne & piece & Hpiece & ->).
  apply pairsOf_piece in Hp as (q & Hq & ->).
  split; [done|]. split; [apply trim_twice|]. split; [|done].
  apply AllChars_trim.
  assert (Hq' : AllChars (λ c, c ≠ ";"%char ∧ c ≠ ","%char) (trim q)).
  { apply AllChars_trim.
    assert (Hall : AllChars (λ _, True) envString)
      by (clear; induction envString; simpl; auto).
    destruct (split_pieces _ _ _ _ Hall Hq) as [_ Hsep].
    eapply AllChars_impl; [|exact Hsep]. intros c Hc. simpl in Hc.
    apply orb_false_iff in Hc as [H1 H2].
    apply bool_decide_eq_false in H1, H2. done. }
  destruct (split_pieces _ _ _ _ Hq' Hpiece) as [Hplain Hsep].
  clear -Hplain Hsep. induction piece as [|c r IH]; simpl in *; [done|].
  destruct Hplain as [[? ?] ?], Hsep as [Hc ?].
  apply bool_decide_eq_false in Hc. split; [done|]. by apply IH.
Qed.

Lemma split_app_sep sep s1 c s2 :
  sep c = true →
  split sep (s1 +:+ String c s2) = split sep s1 ++ split sep s2.
Proof.
  intros Hc. induction s1 as [|a r IH]; simpl.
  - by rewrite Hc.
  - rewrite IH. destruct (sep a); [done|].
    by destruct (split_nonempty sep r) as (h & t & ->).
Qed.

Lemma fold_assign_union (es : list (string * bool)) (m : gmap string bool) :
  fold_left (λ m e, assign e.1 e.2 m) es m
  = fold_left (λ m e, assign e.1 e.2 m) es ∅ ∪ m.
Proof.
  induction es as [|e es IH] using rev_ind; simpl.
  - by rewrite (left_id_L ∅ (∪)).
  - rewrite !fold_left_app. simpl. rewrite IH. unfold assign.
    case_decide; [done|]. by rewrite insert_union_l.
Qed.

Lemma parseFeatureFlags_fold (envString : string) :
  parseFeatureFlags (VString envString) = fold_left parsePair (pairsOf envString) ∅.
Proof. unfold parseFeatureFlags. by destruct envString. Qed.

Lemma parseFeatureFlags_app_sep (s1 s2 : string) (c : ascii) :
  bool_decide (c = ";"%char) || bool_decide (c = ","%char) = true →
  parseFeatureFlags (VString (s1 +:+ String c s2))
  = parseFeatureFlags (VString s2) ∪ parseFeatureFlags (VString s1).
Proof.
  intros Hc. rewrite !parseFeatureFlags_fold. unfold pairsOf.
  rewrite (split_app_sep _ s1 c s2) by done.
  rewrite fmap_app, filter_app, fold_left_app.
  rewrite !fold_parsePair. apply fold_assign_union.
Qed.

(** X6. Joining two environment strings with a comma or a semicolon gives
    the flags of the second string over those of the first: a key that
    the second string sets has the second string's value, every other key
    has the first string's. *)
Theorem parseFeatureFlags_join (s1 s2 : string) :
  parseFeatureFlags (VString (s1 +:+ "," +:+ s2))
  = parseFeatureFlags (VString s2) ∪ parseFeatureFlags (VString s1)
  ∧ parseFeatureFlags (VString (s1 +:+ ";" +:+ s2))
    = parseFeatureFlags (VString s2) ∪ parseFeatureFlags (VString s1).
Proof. split; by apply parseFeatureFlags_app_sep. Qed.
End FlagsWhole.

(** The theorem at a key with white space around it. *)
Lemma parseFeatureFlags_keys_witness :
  is_Some (parseFeatureFlags (VString " a b = x ;c") !! "a b")
  ∧ trim "a b" = "a b".
Proof.
  assert (Hk : is_Some (parseFeatureFlags (VString " a b = x ;c") !! "a b"))
    by (exists false; vm_compute; reflexivity).
  split; [exact Hk|].
  exact (proj1 (proj2 (parseFeatureFlags_keys _ _ Hk))).
Defined.

(** ** The map view over its traces *)

Section MapViewWhole.
Context `{Engine}.

Lemma run_invariant (P : State → Prop) :
  P init → (∀ s e s', P s → step s e = Some s' → P s') →
  ∀ tr s, run init tr = Some s → P s.
Proof.
  intros Hinit Hstep tr. generalize init Hinit. clear Hinit.
  induction tr as [|e tr IH]; intros s0 H0 s; simpl.
  - by intros [= <-].
  - destruct (step s0 e) as [s1|] eqn:He; [|done]. eauto.
Qed.

(** What settling does to the state, case by case. *)
Lemma settle_cases n net s s' :
  settle n net s = Some s' →
  ∃ rs,
    s' = setLoading false (setRuns rs (cleanup s) s)
    ∨ s' = setLoading false
             (handleStationsUpdate [] (Some failureMessage) (setRuns rs (cleanup s) s))
    ∨ ∃ l, length l ≤ maxMarkers
        ∧ s' = setLoading false
                 (paintMarkers l (handleStationsUpdate l None (setRuns rs (cleanup s) s))).
Proof.
  unfold settle. destruct (runs s !! n) as [r|]; [|done].
  destruct (outcome r); [done|]. intros [= <-].
  exists (<[n := setOutcome (awaitStations net r) r]> (runs s)).
  destruct (awaitStations net r) as [l|] eqn:Hres; destruct (alive r);
    [|by left|by right; left|by left].
  right. right. exists l. split; [|done].
  unfold awaitStations in Hres.
  destruct (searchNearbyGasStations _ _ _ _) as [raw|] eqn:Hraw; [|done].
  injection Hres as <-.
  destruct (computeDistances_shape net
              (match userLocation r with Some u => [u] | None => [] end)
              raw (flags r)) as (f & _ & ->).
  rewrite length_imap. unfold searchNearbyGasStations in Hraw.
  destruct (nearbySearch _ _) as [|[results|] st]; try done.
  case_decide; [|done]. injection Hraw as <-. rewrite length_take. lia.
Qed.

Lemma fold_pushMarker_above (l : list Place) (heap : gmap nat Marker)
    (ref : list nat) (a k : nat) :
  a + length l ≤ k → (fold_left pushMarker l (heap, ref, a)).1.1 !! k = heap !! k.
Proof.
  revert heap ref a. induction l as [|p l IH]; intros heap ref a Hk; simpl in *.
  - done.
  - rewrite IH by lia. apply lookup_insert_ne. lia.
Qed.

Lemma marker_setMap_null_idem (m : Marker) :
  marker_setMap_null (marker_setMap_null m) = marker_setMap_null m.
Proof. done. Qed.

Lemma paintMarkers_accounted (l : list Place) (s : State) :
  markersAccounted s → markersAccounted (paintMarkers l s).
Proof.
  intros (Hlt & Hon & Hoff & _).
  destruct (paintMarkers_spec l s) as (heap & Hpaint & Hold & Hnew).
  assert (Habove : ∀ k, allocated s + length l ≤ k → heap !! k = None).
  { intros k Hk. pose proof (fold_pushMarker_above l
       (fold_left (λ h k, alter marker_setMap_null k h) (markersRef s) (markers s))
       [] (allocated s) k Hk) as Hfold.
    assert (Hheap : heap = (fold_left pushMarker l
              (fold_left (λ h k, alter marker_setMap_null k h) (markersRef s) (markers s),
               [], allocated s)).1.1).
    { unfold paintMarkers in Hpaint.
      destruct (fold_left pushMarker l _) as [[h r] a']. simpl.
      by injection Hpaint. }
    rewrite Hheap, Hfold, fold_alter_lookup by apply marker_setMap_null_idem.
    destruct (markers s !! k) as [m|] eqn:Hm.
    - apply Hlt in Hm. lia.
    - by case_decide. }
  rewrite Hpaint. split; [|split; [|split]]; simpl.
  - intros k m Hm. destruct (decide (k < allocated s + length l)); [done|].
    rewrite Habove in Hm by lia. done.
  - intros k [Hlo Hhi]%elem_of_seq.
    destruct (l !! (k - allocated s)) as [p|] eqn:Hp.
    + apply Hnew in Hp. replace (allocated s + (k - allocated s)) with k in Hp by lia.
      by exists (newMarker p).
    + apply lookup_ge_None in Hp. lia.
  - intros k m Hm Honmap. apply elem_of_seq.
    destruct (decide (k < allocated s)) as [Hk|Hk].
    + rewrite Hold in Hm by done. case_decide as Hin.
      * destruct (markers s !! k); [|done]. injection Hm as <-. done.
      * specialize (Hoff _ _ Hm Honmap). done.
    + destruct (decide (k < allocated s + length l)); [lia|].
      rewrite Habove in Hm by lia. done.
  - apply NoDup_seq.
Qed.

Lemma sameOnMap_accounted s s' :
  sameOnMap s s' → markersAccounted s → markersAccounted s'.
Proof.
  intros (_ & Href & Hal & Hmap) (Hlt & Hon & Hoff & Hnd).
  unfold markersAccounted. rewrite Href, Hal.
  split; [|split; [|split]]; [| | |done].
  - intros k m Hm. specialize (Hmap k). rewrite Hm in Hmap.
    destruct (markers s !! k) as [m0|] eqn:Hm0; [|done]. by eapply Hlt.
  - intros k Hk. destruct (Hon k Hk) as (m & Hm & Honmap).
    specialize (Hmap k). rewrite Hm in Hmap.
    destruct (markers s' !! k) as [m'|]; [|done]. exists m'. split; [done|].
    simpl in Hmap. congruence.
  - intros k m Hm Honmap. specialize (Hmap k). rewrite Hm in Hmap.
    destruct (markers s !! k) as [m0|] eqn:Hm0; [|done].
    apply (Hoff k m0 Hm0). simpl in Hmap. congruence.
Qed.

Lemma sameOnMap_withinCap s s' : sameOnMap s s' → withinCap s → withinCap s'.
Proof. intros (Hst & Href & _) [? ?]. unfold withinCap. by rewrite Hst, Href. Qed.

Lemma onMap_alter_animation a k (h : gmap nat Marker) j :
  onMap <$> alter (marker_setAnimation a) k h !! j = onMap <$> h !! j.
Proof.
  destruct (decide (k = j)) as [->|Hne].
  - rewrite lookup_alter_eq. by destruct (h !! j).
  - by rewrite lookup_alter_ne.
Qed.

Lemma onMap_fold_animation a ks (h : gmap nat Marker) j :
  onMap <$> fold_left (λ h k, alter (marker_setAnimation a) k h) ks h !! j
  = onMap <$> h !! j.
Proof.
  revert h. induction ks as [|k ks IH]; intros h; simpl; [done|].
  by rewrite IH, onMap_alter_animation.
Qed.

Lemma highlightEffect_sameOnMap s : sameOnMap s (highlightEffect s).
Proof.
  unfold highlightEffect. destruct (negb (ready s)); [by repeat split|].
  destruct (_ && _); [|repeat split; simpl; apply onMap_fold_animation].
  destruct (List.find _ _); [|repeat split; simpl; apply onMap_fold_animation].
  destruct (mapRef s); repeat split; simpl; intros;
    by rewrite ?onMap_alter_animation, onMap_fold_animation.
Qed.

Lemma step_sameOnMap_or_settle s e s' :
  step s e = Some s' →
  (∃ s0, sameOnMap s0 s' ∧ markers s0 = markers s ∧ markersRef s0 = markersRef s
         ∧ allocated s0 = allocated s ∧ stations s0 = stations s)
  ∨ ∃ n net, e = Settle n net.
Proof.
  destruct e as [rdy c u fl|n net|st|i]; simpl.
  - intros [= <-]. left. exists (fetchEffect rdy c u fl s).
    split; [case_bool_decide; [apply highlightEffect_sameOnMap|by repeat split]|].
    unfold fetchEffect. destruct c; simpl; [|done].
    by destruct (_ && _).
  - right. eauto.
  - intros [= <-]. left. exists (setSelectedStation st s). split; [|done].
    unfold select. case_decide; [by repeat split|].
    apply (highlightEffect_sameOnMap (setSelectedStation st s)).
  - unfold timerFires. destruct (timers s !! i); [|done]. intros [= <-].
    left. exists s. split; [|done]. repeat split; simpl.
    intros k. apply onMap_alter_animation.
Qed.

Lemma accounted_same_fields s s0 :
  markers s0 = markers s → markersRef s0 = markersRef s → allocated s0 = allocated s →
  markersAccounted s → markersAccounted s0.
Proof. unfold markersAccounted. by intros -> -> ->. Qed.

Lemma step_accounted s e s' :
  markersAccounted s → step s e = Some s' → markersAccounted s'.
Proof.
  intros Hs Hstep.
  destruct (step_sameOnMap_or_settle _ _ _ Hstep)
    as [(s0 & Hsame & Hm & Hr & Ha & _)|(n & net & ->)].
  - eapply sameOnMap_accounted; [done|]. by eapply accounted_same_fields.
  - simpl in Hstep. destruct (settle_cases _ _ _ _ Hstep) as (rs & [->|[->|(l & _ & ->)]]).
    + done.
    + done.
    + apply (paintMarkers_accounted l
               (handleStationsUpdate l None (setRuns rs (cleanup s) s))) in Hs.
      exact Hs.
Qed.

(** X7. No marker leaks: in every state the component can reach, a marker
    object ever constructed is on the map exactly when its handle is in
    [markersRef], and the handles in [markersRef] are pairwise distinct. *)
Theorem markers_never_leak (tr : list Event) (s : State) :
  run init tr = Some s →
  NoDup (markersRef s)
  ∧ ∀ k m, markers s !! k = Some m → (onMap m = true ↔ k ∈ markersRef s).
Proof.
  intros Hrun.
  assert (Hacc : markersAccounted s).
  { revert tr s Hrun. apply run_invariant.
    - repeat split; simpl; try done.
      + intros k Hk. by apply elem_of_nil in Hk.
      + apply NoDup_nil_2.
    - intros s0 e s1. apply step_accounted. }
  destruct Hacc as (_ & Hon & Hoff & Hnd). split; [done|].
  intros k m Hm. split; [by apply Hoff|].
  intros Hk. destruct (Hon k Hk) as (m' & Hm' & Honmap). congruence.
Qed.

Lemma paintMarkers_withinCap (l : list Place) (s : State) :
  length l ≤ maxMarkers → length (stations s) ≤ maxMarkers →
  withinCap (paintMarkers l s).
Proof.
  intros Hl Hs. destruct (paintMarkers_spec l s) as (heap & -> & _).
  split; simpl; [done|]. by rewrite length_seq.
Qed.

Lemma step_withinCap s e s' : withinCap s → step s e = Some s' → withinCap s'.
Proof.
  intros Hs Hstep.
  destruct (step_sameOnMap_or_settle _ _ _ Hstep)
    as [(s0 & Hsame & _ & Hr & _ & Hst)|(n & net & ->)].
  - eapply sameOnMap_withinCap; [done|]. unfold withinCap. by rewrite Hr, Hst.
  - simpl in Hstep. destruct (settle_cases _ _ _ _ Hstep) as (rs & [->|[->|(l & Hl & ->)]]).
    + done.
    + destruct Hs as [_ Hs]. split; simpl; [lia|done].
    + by apply paintMarkers_withinCap.
Qed.

(** X8. The cap of 50 holds throughout: in every state the component can
    reach, whatever the provider returned, the published list has at most
    [maxMarkers] stations and the map at most [maxMarkers] station
    markers. *)
Theorem never_more_than_cap (tr : list Event) (s : State) :
  run init tr = Some s →
  length (stations s) ≤ maxMarkers ∧ length (markersRef s) ≤ maxMarkers.
Proof.
  revert tr s. apply (run_invariant withinCap).
  - split; simpl; lia.
  - intros s0 e s1. apply step_withinCap.
Qed.

Lemma step_not_ready s e s' :
  (∀ rdy c u fl, e = Render rdy c u fl → rdy = false ∨ c = None) →
  runs s = [] → step s e = Some s' → runs s' = [] ∧ sameOnMap s s'.
Proof.
  intros Hguard Hruns. destruct e as [rdy c u fl|n net|st|i]; simpl.
  - intros [= <-]. destruct (Hguard _ _ _ _ eq_refl) as [->| ->].
    + unfold fetchEffect. simpl. rewrite Hruns.
      destruct (cleanup s), c; simpl; case_bool_decide; simpl;
        try (split; [done|by repeat split]);
        (split; [by destruct (highlightEffect_sameCycles
                       (setRuns [] None (setMap false (mapRef s || false) s)))
                    as (_ & _ & -> & _)|]);
        apply (highlightEffect_sameOnMap
                 (setRuns [] None (setMap false (mapRef s || false) s))).
    + unfold fetchEffect. simpl. rewrite Hruns.
      assert (Hrs : match cleanup s with
                    | Some n => alter (setAlive false) n ([] : list Run)
                    | None => []
                    end = []) by (by destruct (cleanup s)).
      rewrite Hrs. case_bool_decide; [|split; [done|by repeat split]].
      set (s0 := setRuns [] None _).
      split; [by destruct (highlightEffect_sameCycles s0) as (_ & _ & -> & _)|].
      apply (highlightEffect_sameOnMap s0).
  - unfold settle. by rewrite Hruns.
  - intros [= <-]. unfold select. case_decide; [split; [done|by repeat split]|].
    set (s0 := setSelectedStation st s).
    split; [by destruct (highlightEffect_sameCycles s0) as (_ & _ & -> & _)|].
    apply (highlightEffect_sameOnMap s0).
  - intros Ht. split.
    + by destruct (timerFires_sameCycles _ _ _ Ht) as (_ & _ & -> & _).
    + unfold timerFires in Ht. destruct (timers s !! i); [|done].
      injection Ht as <-. repeat split; simpl. intros k. apply onMap_alter_animation.
Qed.
Lemma highlightEffect_loading s : loading (highlightEffect s) = loading s.
Proof. unfold highlightEffect. by repeat case_match. Qed.

Lemma highlightEffect_listError s : listError (highlightEffect s) = listError s.
Proof. by destruct (highlightEffect_sameCycles s) as (_ & -> & _). Qed.

Lemma step_not_ready_flags s e s' :
  (∀ rdy c u fl, e = Render rdy c u fl → rdy = false ∨ c = None) →
  runs s = [] → step s e = Some s' →
  loading s' = loading s ∧ listError s' = listError s.
Proof.
  intros Hguard Hruns. destruct e as [rdy c u fl|n net|st|i]; simpl.
  - intros [= <-].
    assert (Hfetch : loading (fetchEffect rdy c u fl s) = loading s
                     ∧ listError (fetchEffect rdy c u fl s) = listError s).
    { unfold fetchEffect.
      destruct (Hguard _ _ _ _ eq_refl) as [->| ->]; [by destruct c|done]. }
    case_bool_decide; [|done].
    by rewrite highlightEffect_loading, highlightEffect_listError.
  - unfold settle. by rewrite Hruns.
  - intros [= <-]. unfold select. case_decide; [done|].
    by rewrite highlightEffect_loading, highlightEffect_listError.
  - unfold timerFires. destruct (timers s !! i); [|done]. by intros [= <-].
Qed.

Lemma run_not_ready (tr : list Event) : ∀ s s',
  neverReady tr → runs s = [] → run s tr = Some s' →
  runs s' = [] ∧ stations s' = stations s ∧ markersRef s' = markersRef s
  ∧ loading s' = loading s ∧ listError s' = listError s.
Proof.
  induction tr as [|e tr IH]; intros s s' Hguard Hruns; simpl.
  - by intros [= <-].
  - destruct (step s e) as [s1|] eqn:Hstep; [|done]. intros Hrun.
    assert (He : ∀ rdy c u fl, e = Render rdy c u fl → rdy = false ∨ c = None).
    { intros rdy c u fl ->. apply (Hguard rdy c u fl). apply list_elem_of_here. }
    destruct (step_not_ready _ _ _ He Hruns Hstep) as (Hruns1 & Hst & Href & _).
    destruct (step_not_ready_flags _ _ _ He Hruns Hstep) as (Hload & Herr).
    destruct (IH s1 s') as (? & ? & ? & ? & ?); [|done|done|].
    + intros rdy c u fl Hin. apply (Hguard rdy c u fl). by apply list_elem_of_further.
    + repeat split; congruence.
Qed.

(** X9. Nothing is searched before the map can exist: as long as no
    render has both the loader ready and a centre, no run of the fetch
    effect is started, the list and the map stay empty, and neither the
    loading flag nor the error message is set. *)
Theorem no_search_before_ready (tr : list Event) (s : State) :
  neverReady tr → run init tr = Some s →
  runs s = [] ∧ stations s = [] ∧ markersRef s = []
  ∧ loading s = false ∧ listError s = "".
Proof. intros Hguard Hrun. by apply (run_not_ready tr init s). Qed.
End MapViewWhole.

(** The theorems at the scenario of two searches. *)
Lemma markers_never_leak_witness :
  ∃ s, run (H := exampleEngine) init scenario = Some s
    ∧ NoDup (markersRef s)
    ∧ ∀ k m, markers s !! k = Some m → (onMap m = true ↔ k ∈ markersRef s).
Proof.
  eexists. split; [vm_compute; reflexivity|].
  apply (markers_never_leak (H := exampleEngine) scenario). vm_compute. reflexivity.
Defined.

Lemma never_more_than_cap_witness :
  ∃ s, run (H := exampleEngine) init scenario = Some s
    ∧ length (stations s) ≤ maxMarkers ∧ length (markersRef s) ≤ maxMarkers.
Proof.
  eexists. split; [vm_compute; reflexivity|].
  apply (never_more_than_cap (H := exampleEngine) scenario). vm_compute. reflexivity.
Defined.

(** The theorem while the loader is still loading and a station is
    selected. *)
Lemma no_search_before_ready_witness :
  neverReady [Render false (Some centerOne) None flagsOff; Select (Some stationA)]
  ∧ ∃ s, run (H := exampleEngine) init
           [Render false (Some centerOne) None flagsOff; Select (Some stationA)] = Some s
      ∧ runs s = [] ∧ stations s = [] ∧ markersRef s = []
      ∧ loading s = false ∧ listError s = "".
Proof.
  assert (Hguard : neverReady
            [Render false (Some centerOne) None flagsOff; Select (Some stationA)]).
  { intros rdy c u fl Hin. apply elem_of_cons in Hin as [Heq|Hin].
    - injection Heq as -> _ _ _. by left.
    - apply elem_of_cons in Hin as [Heq|Hin]; [done|]. by apply elem_of_nil in Hin. }
  split; [exact Hguard|]. eexists. split; [vm_compute; reflexivity|].
  apply (no_search_before_ready (H := exampleEngine) _ _ Hguard). vm_compute. reflexivity.
Defined.

(** ** The station list *)

Section StationListFacts.
Context `{Engine}.

Lemma pages_covers (stations : list Place) :
  (1 ≤ StationList.pages stations)%Z
  ∧ length stations ≤ 10 * Z.to_nat (StationList.pages stations).
Proof.
  unfold StationList.pages, StationList.pageSize.
  set (n := Z.of_nat (length stations)).
  assert (Hdiv : (n ≤ 10 * ((n + 10 - 1) / 10))%Z).
  { pose proof (Z.mul_succ_div_gt (n + 10 - 1) 10). lia. }
  split; [lia|]. subst n. lia.
Qed.

(** The cards of page [i + 1] are the next ten stations after the first
    [10 * i]. *)
Lemma view_chunk (stations : list Place) (i : nat) :
  StationList.view stations (Z.of_nat (S i)) = take 10 (drop (10 * i) stations).
Proof.
  unfold StationList.view, StationList.slice, StationList.pageSize.
  replace ((Z.of_nat (S i) - 1) * 10)%Z with (Z.of_nat (10 * i)) by lia.
  rewrite (proj2 (Z.ltb_ge _ _)) by lia.
  rewrite (proj2 (Z.ltb_ge _ _)) by lia.
  destruct (decide (10 * i ≤ length stations)) as [Hle|Hgt].
  - rewrite (Z.min_l (Z.of_nat (10 * i))) by lia. rewrite Nat2Z.id.
    destruct (decide (10 * i + 10 ≤ length stations)).
    + rewrite Z.min_l by lia. f_equal. lia.
    + rewrite Z.min_r by lia.
      rewrite !take_ge; [done| |]; rewrite length_drop; lia.
  - rewrite !Z.min_r by lia. rewrite Z.sub_diag.
    change (Z.to_nat 0) with 0. rewrite take_0.
    rewrite (drop_ge stations (10 * i)) by lia. by rewrite take_nil.
Qed.

Lemma chunks_concat {A} (n : nat) (l : list A) :
  length l ≤ 10 * n →
  concat ((λ i, take 10 (drop (10 * i) l)) <$> seq 0 n) = l.
Proof.
  revert l. induction n as [|n IH]; intros l Hl.
  - destruct l; simpl in *; [done|lia].
  - change (seq 0 (S n)) with (0 :: seq 1 n).
    rewrite fmap_cons, concat_cons, <- fmap_S_seq, <- list_fmap_compose.
    rewrite (list_fmap_ext _ (λ i, take 10 (drop (10 * i) (drop 10 l))) (seq 0 n)).
    + rewrite IH by (rewrite length_drop; lia).
      change (10 * 0) with 0. rewrite drop_0. apply take_drop.
    + intros _ i _. simpl. rewrite drop_drop. do 2 f_equal. lia.
Qed.

(** X10. The pages partition the list: the cards of pages 1 to [pages], in
    that order, are the stations, each exactly once and in the order of
    the list; no page has more than ten cards. *)
Theorem pages_partition_stations (stations : list Place) :
  concat (StationList.view stations <$> pageNumbers stations) = stations
  ∧ ∀ page, length (StationList.view stations page) ≤ 10.
Proof.
  split.
  - unfold pageNumbers. destruct (pages_covers stations) as [_ Hcover].
    rewrite <- fmap_S_seq, <- !list_fmap_compose.
    rewrite (list_fmap_ext _ (λ i, take 10 (drop (10 * i) stations))).
    + by apply chunks_concat.
    + intros _ i _. apply view_chunk.
  - intros page. unfold StationList.view, StationList.slice, StationList.pageSize.
    rewrite length_take.
    repeat match goal with
           | |- context [(?a <? ?b)%Z] => destruct (Z.ltb_spec a b)
           end; lia.
Qed.

Lemma navigate_in_range (stations : list Place) (clicks : list Click) (page : Z) :
  (1 ≤ page ≤ StationList.pages stations)%Z →
  (1 ≤ navigate stations page clicks ≤ StationList.pages stations)%Z.
Proof.
  revert page. unfold navigate.
  induction clicks as [|c clicks IH]; intros page Hp; simpl; [done|].
  apply IH. destruct c; unfold StationList.handleNext, StationList.handlePrev; lia.
Qed.

Lemma navigate_next (stations : list Place) (k : nat) :
  (Z.of_nat k < StationList.pages stations)%Z →
  navigate stations 1 (replicate k Next) = (1 + Z.of_nat k)%Z.
Proof.
  induction k as [|k IH]; intros Hk; [done|].
  unfold navigate in *. rewrite replicate_S_end, fold_left_app. simpl.
  rewrite IH by lia. unfold StationList.handleNext. lia.
Qed.

(** X11. The pagination bar keeps the page within 1..[pages]: starting
    from page 1, any sequence of Next and Prev clicks on the same list
    lands on a page of the list, Next on the last page and Prev on the
    first change nothing, and every page of the list is reached by
    clicking Next often enough. *)
Theorem pagination_stays_in_range (stations : list Place) :
  (∀ clicks, 1 ≤ navigate stations 1 clicks ≤ StationList.pages stations)%Z
  ∧ StationList.handleNext stations (StationList.pages stations)
    = StationList.pages stations
  ∧ StationList.handlePrev 1 = 1%Z
  ∧ ∀ page, page ∈ pageNumbers stations →
      ∃ clicks, navigate stations 1 clicks = page.
Proof.
  destruct (pages_covers stations) as [Hone _].
  split; [intros clicks; apply navigate_in_range; lia|].
  split; [unfold StationList.handleNext; lia|]. split; [done|].
  intros page (i & -> & Hi)%list_elem_of_fmap.
  apply elem_of_seq in Hi. destruct i as [|i]; [lia|].
  exists (replicate i Next). rewrite navigate_next by lia. lia.
Qed.

(** X12. The page survives a change of the list.  After Next on a list of
    more than ten stations, a new list of one to ten stations shows no
    card at all: the page is past the end, the "no stations" notice is
    not shown because the list is not empty, and the pagination bar is not
    rendered, so no click can bring the cards back. *)
Theorem shorter_list_shows_nothing (old new : list Place) (loading : bool) :
  10 < length old → 0 < length new ≤ 10 →
  let page := StationList.handleNext old 1 in
  page = 2%Z
  ∧ StationList.view new page = []
  ∧ StationList.showsPagination new = false
  ∧ StationList.showsEmptyNotice loading new = false.
Proof.
  intros Hold Hnew page.
  assert (Hpage : page = 2%Z).
  { subst page. unfold StationList.handleNext, StationList.pages, StationList.pageSize.
    assert (2 ≤ (Z.of_nat (length old) + 10 - 1) / 10)%Z
      by (apply Z.div_le_lower_bound; lia).
    lia. }
  assert (Hpages : StationList.pages new = 1%Z).
  { unfold StationList.pages, StationList.pageSize.
    assert ((Z.of_nat (length new) + 10 - 1) / 10 < 2)%Z
      by (apply Z.div_lt_upper_bound; lia).
    lia. }
  split; [done|]. rewrite Hpage. split; [|split].
  - change 2%Z with (Z.of_nat (S 1)). rewrite view_chunk.
    rewrite drop_ge by lia. done.
  - unfold StationList.showsPagination. by rewrite Hpages.
  - unfold StationList.showsEmptyNotice. rewrite bool_decide_false by lia.
    by destruct loading.
Qed.

Lemma truthy_app_r (a b : string) : truthy b = true → truthy (a +:+ b) = true.
Proof. destruct a; [done|]. done. Qed.

Lemma formatDistance_truthy (m : float) :
  Number_isNaN m = false → truthy (formatDistance (Num m)) = true.
Proof.
  intros Hnan. unfold formatDistance. rewrite Hnan.
  destruct (m <? 1000)%float; by apply truthy_app_r.
Qed.

(** X13. What a card says about distance after the fallback.  Without an
    origin every card of the enriched list says "Distance unavailable";
    with an origin, a card whose place has a position says "Distance: "
    followed by the formatted haversine distance, unless that distance is
    NaN, for which it says "Distance unavailable" too. *)
Theorem card_distance_after_fallback google origins places flags :
  networkMethodUnused google origins places flags →
  ∀ q, q ∈ computeDistancesIfEnabled google origins places flags →
    match head origins with
    | None => StationList.cardDistanceLine q = "Distance unavailable"
    | Some o =>
        match positionOf q with
        | Some (la, ln) =>
            let m := haversineMeters (lat o) (lng o) la ln in
            StationList.cardDistanceLine q
            = if Number_isNaN m then "Distance unavailable"
              else "Distance: " +:+ formatDistance (Num m)
        | None => StationList.cardDistanceLine q = "Distance unavailable"
        end
    end.
Proof.
  intros Hun q Hq. rewrite (computeDistances_fallback _ _ _ _ Hun) in Hq.
  apply list_elem_of_fmap in Hq as (p & -> & _).
  destruct (enrichByHaversine_fields (head origins) p) as (Hsame & _ & Hfields).
  assert (Hpos : positionOf (enrichByHaversine (head origins) p) = positionOf p).
  { destruct Hsame as (_ & _ & _ & _ & Hg & Hl). unfold positionOf. by rewrite Hg, Hl. }
  rewrite Hpos. unfold StationList.cardDistanceLine, StationList.cardDistanceText.
  destruct (head origins) as [o|].
  - destruct (positionOf p) as [[la ln]|].
    + destruct Hfields as [-> ->]. cbv zeta.
      change ((λ m0, formatDistance (Num m0)) <$> Some ?x)
        with (Some (formatDistance (Num x))).
      set (m := haversineMeters (lat o) (lng o) la ln).
      destruct (Number_isNaN m) eqn:Hnan.
      * assert (Hempty : formatDistance (Num m) = EmptyString)
          by (unfold formatDistance; by rewrite Hnan).
        by rewrite Hempty.
      * pose proof (formatDistance_truthy m Hnan) as Htruthy.
        unfold truthy_opt. by rewrite !Htruthy.
    + by destruct Hfields as [-> ->].
  - by destruct Hfields as [-> ->].
Qed.
End StationListFacts.

(** The theorem after going to page 2 of twelve stations, at a list of
    three. *)
Lemma shorter_list_shows_nothing_witness :
  10 < length (replicate 12 stationA)
  ∧ 0 < length [stationA; stationB; stationC] ≤ 10
  ∧ StationList.view [stationA; stationB; stationC]
      (StationList.handleNext (replicate 12 stationA) 1) = [].
Proof.
  assert (H1 : 10 < length (replicate 12 stationA)) by (simpl; lia).
  assert (H2 : 0 < length [stationA; stationB; stationC] ≤ 10) by (simpl; lia).
  split; [exact H1|]. split; [exact H2|].
  exact (proj1 (proj2 (shorter_list_shows_nothing _ _ false H1 H2))).
Defined.

(** The theorem without an origin, at the first of two stations. *)
Lemma card_distance_after_fallback_witness :
  networkMethodUnused (provider [] []) [] [stationA; stationB] flagsOff
  ∧ stationA ∈ computeDistancesIfEnabled (H := exampleEngine) (provider [] [])
                 [] [stationA; stationB] flagsOff
  ∧ StationList.cardDistanceLine (H := exampleEngine) stationA = "Distance unavailable".
Proof.
  assert (Hun : networkMethodUnused (provider [] []) [] [stationA; stationB] flagsOff)
    by (by left).
  assert (Hin : stationA ∈ computeDistancesIfEnabled (H := exampleEngine) (provider [] [])
                 [] [stationA; stationB] flagsOff) by apply list_elem_of_here.
  split; [exact Hun|]. split; [exact Hin|].
  exact (card_distance_after_fallback (H := exampleEngine) _ _ _ _ Hun _ Hin).
Defined.

(** ** Geolocation: requests and their answers *)

Section GeolocationFacts.

Lemma sum_list_snoc (l : list nat) (n : nat) : sum_list (l ++ [n]) = sum_list l + n.
Proof. induction l as [|m l IH]; simpl; lia. Qed.

Lemma geo_run_snoc s tr e :
  Geolocation.run s (tr ++ [e]) = Geolocation.step (Geolocation.run s tr) e.
Proof. unfold Geolocation.run. by rewrite fold_left_app. Qed.

Lemma issued_snoc tr e :
  issued (tr ++ [e])
  = issued tr + match e with Geolocation.Locate true => 1 | _ => 0 end.
Proof. unfold issued. rewrite fmap_app. cbn [fmap list_fmap]. by rewrite sum_list_snoc. Qed.

(** [requestRef] counts the requests issued. *)
Lemma requestRef_issued tr :
  Geolocation.requestRef (Geolocation.run Geolocation.init tr) = issued tr.
Proof.
  induction tr as [|e tr IH] using rev_ind; [done|].
  rewrite geo_run_snoc, issued_snoc.
  destruct e as [[]|id la ln|id err]; simpl.
  - rewrite IH. lia.
  - rewrite IH. lia.
  - unfold Geolocation.onPosition. case_decide; simpl; rewrite IH; lia.
  - unfold Geolocation.onPositionError. case_decide; simpl; rewrite IH; lia.
Qed.

(** X14. Only the answer to the latest request counts.  After any
    history, a position for request [id] replaces the coordinates and
    clears the error when [id] is the number of requests issued so far,
    and changes nothing otherwise; a failure for [id] replaces the error
    under the same condition; neither a failure nor a new request ever
    changes the coordinates. *)
Theorem only_latest_request_answers (tr : list Geolocation.Event) (id : nat) :
  let s := Geolocation.run Geolocation.init tr in
  (∀ la ln,
     Geolocation.run Geolocation.init (tr ++ [Geolocation.Position id la ln])
     = if decide (id = issued tr)
       then {| Geolocation.coords := Some {| lat := la; lng := ln |};
               Geolocation.error := None;
               Geolocation.requestRef := issued tr |}
       else s)
  ∧ (∀ err,
       let s' := Geolocation.run Geolocation.init (tr ++ [Geolocation.Failure id err]) in
       Geolocation.coords s' = Geolocation.coords s
       ∧ Geolocation.error s'
         = if decide (id = issued tr) then Some (Geolocation.mapError err)
           else Geolocation.error s)
  ∧ (∀ supported,
       Geolocation.coords
         (Geolocation.run Geolocation.init (tr ++ [Geolocation.Locate supported]))
       = Geolocation.coords s).
Proof.
  intros s. pose proof (requestRef_issued tr) as Href. fold s in Href.
  split; [|split].
  - intros la ln. rewrite geo_run_snoc. fold s. simpl.
    unfold Geolocation.onPosition. rewrite Href.
    destruct (decide (id = issued tr)) as [->|Hne].
    + by rewrite decide_False by (intros Hne; by apply Hne).
    + by rewrite decide_True.
  - intros err. rewrite geo_run_snoc. fold s. simpl.
    unfold Geolocation.onPositionError. rewrite Href.
    destruct (decide (id = issued tr)) as [->|Hne].
    + by rewrite decide_False by (intros Hne; by apply Hne).
    + by rewrite decide_True.
  - intros supported. rewrite geo_run_snoc. fold s. by destruct supported.
Qed.

Lemma substring_length_le (n m : nat) (s : string) :
  String.length (String.substring n m s) ≤ m.
Proof.
  revert n m. induction s as [|c s IH]; intros n m.
  - destruct n, m; simpl; lia.
  - destruct n as [|n].
    + destruct m as [|m]; simpl; [lia|]. specialize (IH 0 m). lia.
    + simpl. apply IH.
Qed.

Lemma mapError_presentable err : presentable (Geolocation.mapError err).
Proof.
  unfold presentable, Geolocation.mapError. simpl. split; [|split].
  - unfold Geolocation.codeMap, geoCodes.
    destruct (err ≫= Geolocation.pe_code) as [n|]; simpl; [|set_solver].
    destruct (n =? 1)%float; [set_solver|].
    destruct (n =? 2)%float; [set_solver|].
    destruct (n =? 3)%float; set_solver.
  - destruct (default "" (err ≫= Geolocation.pe_message)) as [|c r]; by simpl.
  - destruct (truthy _); [apply substring_length_le|simpl; lia].
Qed.

Lemma geo_step_presentable s e :
  (∀ x, Geolocation.error s = Some x → presentable x) →
  ∀ x, Geolocation.error (Geolocation.step s e) = Some x → presentable x.
Proof.
  intros Hs x. destruct e as [[]|id la ln|id err]; simpl.
  - apply Hs.
  - intros [= <-]. unfold presentable, geoCodes. simpl.
    split; [set_solver|]. split; [done|lia].
  - unfold Geolocation.onPosition. case_decide; [apply Hs|done].
  - unfold Geolocation.onPositionError. case_decide; [apply Hs|].
    simpl. intros [= <-]. apply mapError_presentable.
Qed.

(** X15. Every error the hook reports can be shown: whatever the browser
    handed to the callbacks, the error has one of the five codes and a
    message that is not empty and has at most 180 units, and the message
    [App] derives from it is not empty. *)
Theorem reported_error_is_presentable (tr : list Geolocation.Event)
    (e : Geolocation.GeoError) :
  Geolocation.error (Geolocation.run Geolocation.init tr) = Some e →
  Geolocation.code e ∈ geoCodes
  ∧ Geolocation.message e ≠ ""
  ∧ String.length (Geolocation.message e) ≤ 180
  ∧ AppShell.userFacingGeoError (Some e) ≠ "".
Proof.
  intros He.
  assert (Hp : presentable e).
  { revert e He. induction tr as [|ev tr IH] using rev_ind; [done|].
    rewrite geo_run_snoc. by apply geo_step_presentable. }
  destruct Hp as (? & ? & ?). repeat (split; [done|]).
  unfold AppShell.userFacingGeoError. by repeat case_decide.
Qed.
End GeolocationFacts.

(** The theorem at a failure without a message, after one request. *)
Lemma reported_error_is_presentable_witness :
  Geolocation.error
    (Geolocation.run Geolocation.init
       [Geolocation.Locate true;
        Geolocation.Failure 1 (Some {| Geolocation.pe_code := Some 3%float;
                                       Geolocation.pe_message := None |})])
  = Some {| Geolocation.code := "TIMEOUT"; Geolocation.message := "Geolocation error" |}
  ∧ AppShell.userFacingGeoError
      (Some {| Geolocation.code := "TIMEOUT"; Geolocation.message := "Geolocation error" |})
    ≠ "".
Proof.
  assert (He : Geolocation.error
    (Geolocation.run Geolocation.init
       [Geolocation.Locate true;
        Geolocation.Failure 1 (Some {| Geolocation.pe_code := Some 3%float;
                                       Geolocation.pe_message := None |})])
    = Some {| Geolocation.code := "TIMEOUT"; Geolocation.message := "Geolocation error" |})
    by (vm_compute; reflexivity).
  split; [exact He|].
  exact (proj2 (proj2 (proj2 (reported_error_is_presentable _ _ He)))).
Defined.

(** ** [App]: where the map is centred *)

Section CenterFacts.

Lemma center_after_first (tr : list AppShell.CenterEvent) (c0 : LatLngLiteral) :
  fold_left AppShell.centerStep tr (Some c0) = Some (default c0 (lastIdle tr)).
Proof.
  revert c0. induction tr as [|[u|c] tr IH]; intros c0; simpl.
  - done.
  - assert (Hinit : AppShell.initCenter u (Some c0) = Some c0) by (by destruct u).
    rewrite Hinit. apply IH.
  - unfold AppShell.handleMapIdle. rewrite IH. unfold lastIdle. simpl.
    rewrite last_cons. by destruct (last _).
Qed.

(** X16. The map is never centred on the user.  The first commit sees
    the coordinates the hook starts with, which are missing, and sets the
    fallback centre; from then on the centre is the fallback centre until
    the map reports a settled move, and the centre of the last such move
    afterwards, whatever user locations the later commits see. *)
Theorem center_never_follows_location (tr : list AppShell.CenterEvent) :
  fold_left AppShell.centerStep
    (AppShell.Commit (Geolocation.coords Geolocation.init) :: tr) None
  = Some (default AppShell.fallbackCenter (lastIdle tr)).
Proof. simpl. apply center_after_first. Qed.
End CenterFacts.

(** ** [MapView]: the idle timer and the user marker *)

Section MapEffectsFacts.

Lemma idles_snoc tr e :
  idles (tr ++ [e])
  = idles tr + match e with MapEffects.Idle => 1 | MapEffects.Expires _ _ => 0 end.
Proof. unfold idles. rewrite fmap_app. cbn [fmap list_fmap]. by rewrite sum_list_snoc. Qed.

Lemma filter_ne_singleton (t : nat) : filter (λ t', t' ≠ t) [t] = [].
Proof. cbn. by case_decide. Qed.

Lemma handleIdle_oneTimer s :
  oneTimer s →
  MapEffects.idleTimerRef (MapEffects.handleIdle s) = Some (MapEffects.nextTimerId s)
  ∧ MapEffects.pendingTimers (MapEffects.handleIdle s) = [MapEffects.nextTimerId s]
  ∧ MapEffects.centerReports (MapEffects.handleIdle s) = MapEffects.centerReports s.
Proof.
  intros Hone. split; [done|]. split; [|done].
  unfold MapEffects.handleIdle. simpl.
  destruct Hone as [Hnil|(t & Ht & Hp)].
  - rewrite Hnil. by destruct (MapEffects.idleTimerRef s).
  - by rewrite Ht, Hp, filter_ne_singleton.
Qed.

Lemma idleStep_invariant s e n :
  oneTimer s →
  length (MapEffects.centerReports s) + length (MapEffects.pendingTimers s) ≤ n →
  oneTimer (MapEffects.idleStep s e)
  ∧ length (MapEffects.centerReports (MapEffects.idleStep s e))
    + length (MapEffects.pendingTimers (MapEffects.idleStep s e))
    ≤ n + match e with MapEffects.Idle => 1 | MapEffects.Expires _ _ => 0 end.
Proof.
  intros Hone Hn. destruct e as [|t c]; cbn [MapEffects.idleStep].
  - destruct (handleIdle_oneTimer s Hone) as (Href & Hp & Hr).
    split; [right; eauto|]. rewrite Hp, Hr. simpl.
    destruct Hone as [Hnil|(t & _ & Hpt)]; [rewrite Hnil in Hn|rewrite Hpt in Hn];
      simpl in Hn; lia.
  - unfold MapEffects.timerExpires. case_decide as Hin; [|split; [done|lia]].
    destruct Hone as [Hnil|(t0 & Ht0 & Hp)].
    + rewrite Hnil in Hin. by apply elem_of_nil in Hin.
    + rewrite Hp in Hin. apply list_elem_of_singleton in Hin as ->.
      simpl. rewrite Hp in *. rewrite filter_ne_singleton.
      split; [by left|]. destruct c; rewrite ?length_app; simpl in *; lia.
Qed.

Lemma idle_run_invariant tr :
  let s := fold_left MapEffects.idleStep tr MapEffects.idleInit in
  oneTimer s
  ∧ length (MapEffects.centerReports s) + length (MapEffects.pendingTimers s)
    ≤ idles tr.
Proof.
  induction tr as [|e tr IH] using rev_ind; simpl.
  - split; [by left|done].
  - rewrite fold_left_app, idles_snoc. simpl.
    destruct IH as [Hone Hn]. by apply idleStep_invariant.
Qed.

Lemma burst_oneTimer (k : nat) s :
  oneTimer s →
  let s' := fold_left MapEffects.idleStep (replicate (S k) MapEffects.Idle) s in
  ∃ t, MapEffects.idleTimerRef s' = Some t ∧ MapEffects.pendingTimers s' = [t]
     ∧ MapEffects.centerReports s' = MapEffects.centerReports s.
Proof.
  revert s. induction k as [|k IH]; intros s Hone.
  - simpl. destruct (handleIdle_oneTimer s Hone) as (? & ? & ?). eauto.
  - change (replicate (S (S k)) MapEffects.Idle)
      with (MapEffects.Idle :: replicate (S k) MapEffects.Idle).
    cbn [fold_left MapEffects.idleStep].
    destruct (handleIdle_oneTimer s Hone) as (Href & Hp & Hr).
    destruct (IH (MapEffects.handleIdle s)) as (t & ? & ? & Hr'); [right; eauto|].
    exists t. repeat (split; [done|]). by rewrite Hr', Hr.
Qed.

(** X17. The idle handler is debounced.  After any history of idle
    events and timer expiries at most one timer is pending, the one in the
    ref, and the centres reported plus the timer pending are no more than
    the idle events; a burst of idle events from there leaves exactly one
    timer pending, whose expiry reports the centre of the map once and
    leaves none. *)
Theorem idle_is_debounced (tr : list MapEffects.IdleEvent) :
  let s := fold_left MapEffects.idleStep tr MapEffects.idleInit in
  oneTimer s
  ∧ length (MapEffects.centerReports s) + length (MapEffects.pendingTimers s)
    ≤ idles tr
  ∧ ∀ k c,
      let s' := fold_left MapEffects.idleStep (replicate (S k) MapEffects.Idle) s in
      ∃ t, MapEffects.pendingTimers s' = [t]
        ∧ MapEffects.centerReports s' = MapEffects.centerReports s
        ∧ MapEffects.centerReports (MapEffects.timerExpires t (Some c) s')
          = MapEffects.centerReports s ++ [c]
        ∧ MapEffects.pendingTimers (MapEffects.timerExpires t (Some c) s') = [].
Proof.
  intros s. destruct (idle_run_invariant tr) as [Hone Hn]. fold s in Hone, Hn.
  split; [done|]. split; [done|]. intros k c s'.
  destruct (burst_oneTimer k s Hone) as (t & Href & Hp & Hr). fold s' in Href, Hp, Hr.
  exists t. split; [done|]. split; [done|].
  unfold MapEffects.timerExpires. rewrite Hp.
  rewrite decide_True by apply list_elem_of_here. simpl.
  rewrite Hr. split; [done|]. apply filter_ne_singleton.
Qed.

Lemma userMarkerEffect_ok (okay : bool) (u : option LatLngLiteral) s :
  userMarkerOk s → userMarkerOk (MapEffects.userMarkerEffect okay u s).
Proof.
  intros Hok. pose proof Hok as [Hall Href]. unfold MapEffects.userMarkerEffect.
  destruct okay; simpl; [|exact Hok].
  destruct u as [u|], (MapEffects.userMarkerRef s) as [k0|] eqn:Hk0;
    [| | |exact Hok].
  - split; simpl.
    + intros k m. destruct (decide (k0 = k)) as [->|Hne].
      * rewrite lookup_alter_eq. destruct (MapEffects.userMarkers s !! k) as [m0|] eqn:Hm0;
          [|done].
        intros [= <-]. simpl. by apply Hall.
      * rewrite lookup_alter_ne by done. apply Hall.
    + intros k [= <-]. destruct (Href k0 eq_refl) as [m0 Hm0].
      rewrite lookup_alter_eq, Hm0. by eexists.
  - split; simpl.
    + intros k m. destruct (decide (MapEffects.userMarkersMade s = k)) as [<-|Hne].
      * rewrite lookup_insert_eq. intros [= <-]. simpl. split; [lia|done].
      * rewrite lookup_insert_ne by done. intros Hm.
        destruct (Hall k m Hm) as [Hlt Hon]. split; [lia|].
        split; [intros Honmap; by apply Hon in Honmap|]. intros [= ?]. done.
    + intros k [= <-]. rewrite lookup_insert_eq. by eexists.
  - split; simpl; [|done].
    intros k m. destruct (decide (k0 = k)) as [->|Hne].
    + rewrite lookup_alter_eq. destruct (MapEffects.userMarkers s !! k) as [m0|] eqn:Hm0;
        [|done].
      intros [= <-]. simpl. split; [by apply (Hall k m0)|done].
    + rewrite lookup_alter_ne by done. intros Hm.
      destruct (Hall k m Hm) as [Hlt Hon]. split; [done|].
      split; [|done]. intros Honmap. apply Hon in Honmap. congruence.
Qed.

Lemma userMarkerRuns_snoc tr r :
  userMarkerRuns (tr ++ [r])
  = MapEffects.userMarkerEffect r.1 r.2 (userMarkerRuns tr).
Proof. unfold userMarkerRuns. by rewrite fold_left_app. Qed.

Lemma userMarkerRuns_ok tr : userMarkerOk (userMarkerRuns tr).
Proof.
  induction tr as [|r tr IH] using rev_ind.
  - split; [|done]. intros k m Hm.
    change (MapEffects.userMarkers (userMarkerRuns [])) with (∅ : gmap nat MapEffects.UserMarker) in Hm.
    by rewrite lookup_empty in Hm.
  - rewrite userMarkerRuns_snoc. by apply userMarkerEffect_ok.
Qed.

(** X18. There is never more than one user marker.  After any sequence
    of runs of the effect, a user marker ever made is on the map exactly
    when it is the one in the ref; after a run with the map and a user
    location the ref holds a marker at that location, on the map; after a
    run with the map and no user location no user marker is on the map. *)
Theorem user_marker_is_single (tr : list (bool * option LatLngLiteral)) :
  let s := userMarkerRuns tr in
  (∀ k m, MapEffects.userMarkers s !! k = Some m →
     (MapEffects.um_onMap m = true ↔ MapEffects.userMarkerRef s = Some k))
  ∧ match last tr with
    | Some (true, Some u) =>
        ∃ k m, MapEffects.userMarkerRef s = Some k
          ∧ MapEffects.userMarkers s !! k = Some m
          ∧ MapEffects.um_position m = u ∧ MapEffects.um_onMap m = true
    | Some (true, None) =>
        MapEffects.userMarkerRef s = None
        ∧ ∀ k m, MapEffects.userMarkers s !! k = Some m → MapEffects.um_onMap m = false
    | _ => True
    end.
Proof.
  intros s. split.
  { intros k m Hm. by apply (userMarkerRuns_ok tr). }
  subst s. destruct tr as [|r tr0 _] using rev_ind; [done|].
  rewrite last_snoc. destruct r as [[] [u|]]; [| |done|done].
  - rewrite userMarkerRuns_snoc.
    pose proof (userMarkerRuns_ok tr0) as [Hall0 Href0].
    unfold MapEffects.userMarkerEffect. cbn [fst snd negb].
    destruct (MapEffects.userMarkerRef (userMarkerRuns tr0)) as [k0|] eqn:Hk0;
      cbn [MapEffects.userMarkerRef MapEffects.userMarkers].
    + destruct (Href0 k0 eq_refl) as [m0 Hm0].
      exists k0, {| MapEffects.um_position := u;
                    MapEffects.um_onMap := MapEffects.um_onMap m0 |}.
      split; [done|]. rewrite lookup_alter_eq, Hm0. split; [done|]. split; [done|].
      simpl. by apply (Hall0 k0 m0).
    + eexists _, _. split; [done|]. rewrite lookup_insert_eq. done.
  - pose proof (userMarkerRuns_ok (tr0 ++ [(true, None)])) as [Hall _].
    assert (Hnone : MapEffects.userMarkerRef (userMarkerRuns (tr0 ++ [(true, None)]))
                    = None).
    { rewrite userMarkerRuns_snoc. unfold MapEffects.userMarkerEffect. cbn [fst snd negb].
      by destruct (MapEffects.userMarkerRef (userMarkerRuns tr0)) eqn:Hk0. }
    split; [done|]. intros k m Hm. destruct (Hall k m Hm) as [_ Hon].
    rewrite Hnone in Hon. destruct (MapEffects.um_onMap m); [|done].
    by pose proof (proj1 Hon eq_refl).
Qed.
End MapEffectsFacts.

(** ** [StationDetails]: the parameters of the directions link *)

Section DirectionsFacts.
Context `{Engine}.

Lemma length_append (a b : string) :
  String.length (a +:+ b) = String.length a + String.length b.
Proof. induction a as [|c a IH]; simpl; [done|]. by rewrite IH. Qed.

Lemma AllChars_app (P : ascii → Prop) (a b : string) :
  AllChars P (a +:+ b) ↔ AllChars P a ∧ AllChars P b.
Proof. induction a as [|c a IH]; simpl; [tauto|]. rewrite IH. tauto. Qed.

(** A unit is left as it is, or becomes a percent sign followed by at
    least two more units. *)
Lemma encodeUnit_cases (c : ascii) :
  (unreservedUnit c ∧ StationDetails.encodeUnit c = String c EmptyString)
  ∨ (StationDetails.is_unreserved c = false
     ∧ ∃ r, StationDetails.encodeUnit c = String "%" r
          ∧ 2 ≤ String.length r ∧ AllChars urlSafe r).
Proof.
  destruct c as [[] [] [] [] [] [] [] []];
    first [ left; split; vm_compute; reflexivity
          | right; split; [vm_compute; reflexivity|];
            eexists; split; [reflexivity|];
            split; [simpl; lia|];
            simpl; repeat split;
            first [left; vm_compute; reflexivity|right; reflexivity] ].
Qed.

Lemma encode_safe (s : string) : AllChars urlSafe (StationDetails.encodeURIComponent s).
Proof.
  induction s as [|c s IH]; simpl; [done|]. apply AllChars_app. split; [|done].
  destruct (encodeUnit_cases c) as [[Hc ->]|(_ & r & -> & _ & Hr)]; simpl.
  - split; [by left|done].
  - split; [by right|done].
Qed.

Lemma encode_length (s : string) :
  String.length s ≤ String.length (StationDetails.encodeURIComponent s).
Proof.
  induction s as [|c s IH]; simpl; [done|]. rewrite length_append.
  destruct (encodeUnit_cases c) as [[_ ->]|(_ & r & -> & _ & _)]; simpl; lia.
Qed.

Lemma encode_same_length (s : string) :
  String.length (StationDetails.encodeURIComponent s) = String.length s →
  AllChars unreservedUnit s.
Proof.
  induction s as [|c s IH]; simpl; [done|]. rewrite length_append.
  pose proof (encode_length s).
  destruct (encodeUnit_cases c) as [[Hc ->]|(_ & r & -> & Hr & _)]; simpl; intros Hlen.
  - split; [done|]. apply IH. lia.
  - lia.
Qed.

Lemma encode_unreserved (s : string) :
  AllChars unreservedUnit s → StationDetails.encodeURIComponent s = s.
Proof.
  induction s as [|c s IH]; simpl; [done|]. intros [Hc Hs].
  unfold StationDetails.encodeUnit. rewrite Hc. simpl. by rewrite IH.
Qed.

Lemma unreserved_of_encoded (s : string) :
  AllChars unreservedUnit (StationDetails.encodeURIComponent s) →
  AllChars unreservedUnit s.
Proof.
  induction s as [|c s IH]; simpl; [done|]. rewrite AllChars_app. intros [Hc Hs].
  destruct (encodeUnit_cases c) as [[Hu _]|(_ & r & Hr & _)].
  - split; [done|by apply IH].
  - rewrite Hr in Hc. by destruct Hc as [Hc _].
Qed.

(** X19. The parameters of the directions link cannot break out of it:
    whenever the link is built it is the fixed prefix, the origin,
    [&destination=], the destination and [&travelmode=driving], where
    origin and destination consist of unreserved characters and percent
    signs only (no ampersand, equals sign, question mark, hash or space). *)
Theorem directions_link_is_well_formed (st : Place) (u : option LatLngLiteral)
    (url : string) :
  StationDetails.directionsUrl st u = Some url →
  ∃ o d, url = "https://www.google.com/maps/dir/?api=1&origin=" +:+ o
               +:+ "&destination=" +:+ d +:+ "&travelmode=driving"
    ∧ AllChars urlSafe o ∧ AllChars urlSafe d.
Proof.
  unfold StationDetails.directionsUrl.
  destruct (StationDetails.destinationOf st) as [d|]; [|done]. intros [= <-].
  eexists _, _. split; [done|]. split; apply encode_safe.
Qed.

(** X20. The address of a station without coordinates is escaped twice.
    For such a station the destination parameter is the escape of the
    escape of [vicinity || name || ''], and that is the escape of the text
    only when every unit of the text is unreserved: an address with a
    space or a comma reaches the map service with its percent signs
    escaped again. *)
Theorem address_is_escaped_twice (st : Place) (u : option LatLngLiteral) :
  geometry_location st = None → location st = None →
  let text := StationDetails.addressText st in
  let enc := StationDetails.encodeURIComponent in
  (∃ o, StationDetails.directionsUrl st u
        = Some ("https://www.google.com/maps/dir/?api=1&origin=" +:+ o
                +:+ "&destination=" +:+ enc (enc text) +:+ "&travelmode=driving"))
  ∧ (enc (enc text) = enc text ↔ AllChars unreservedUnit text).
Proof.
  intros Hg Hl text enc. split.
  - unfold StationDetails.directionsUrl, StationDetails.destinationOf.
    rewrite Hg, Hl. by eexists.
  - split.
    + intros Heq. apply unreserved_of_encoded, encode_same_length.
      fold enc. by rewrite Heq.
    + intros Hall. subst enc. by rewrite !(encode_unreserved text Hall).
Qed.
End DirectionsFacts.

(** The theorem at a station with coordinates and a known user location. *)
Lemma directions_link_is_well_formed_witness :
  ∃ url, StationDetails.directionsUrl (H := exampleEngine) stationA (Some userAt) = Some url
    ∧ ∃ o d, url = "https://www.google.com/maps/dir/?api=1&origin=" +:+ o
                   +:+ "&destination=" +:+ d +:+ "&travelmode=driving"
        ∧ AllChars urlSafe o ∧ AllChars urlSafe d.
Proof.
  eexists. split; [vm_compute; reflexivity|].
  apply (directions_link_is_well_formed (H := exampleEngine) stationA (Some userAt)).
  vm_compute. reflexivity.
Defined.

(** The theorem at a station known by its address, which has spaces and a
    comma. *)
Lemma address_is_escaped_twice_witness :
  geometry_location stationByAddress = None ∧ location stationByAddress = None
  ∧ StationDetails.encodeURIComponent
      (StationDetails.encodeURIComponent (StationDetails.addressText stationByAddress))
    = "1%2520Main%2520St%252C%2520Lebanon"
  ∧ ¬ AllChars unreservedUnit (StationDetails.addressText stationByAddress).
Proof.
  split; [reflexivity|]. split; [reflexivity|]. split; [vm_compute; reflexivity|].
  intros Hall.
  apply (proj2 (address_is_escaped_twice (H := exampleEngine) stationByAddress None
                  eq_refl eq_refl)) in Hall.
  vm_compute in Hall. discriminate Hall.
Defined.
